(** * central_blockchain.py: blocks, proof of work and the central ledger

    A shallow embedding of [src/central_blockchain.py].

    - Python [str] values are lists of Unicode code points ([pystr]);
      Python [int] values are [Z]; Python [float] values are an opaque
      type whose JSON text is a parameter of the development.
    - [json.dumps(..., separators=(",", ":"), sort_keys=True)] and
      [hashlib.sha256] are the Python library functions the source calls;
      they are written out here (CPython's [json.encoder] with its default
      [ensure_ascii=True], and FIPS 180-4).
    - [Block] objects are mutable and shared by reference: they live in a
      store ([heap]) and the ledger's chain is a list of references. *)

From Stdlib Require Import ZArith NArith List Lia Bool Decimal DecimalZ DecimalN DecimalPos.
From stdpp Require Import base tactics option list numbers strings sorting.
Import ListNotations.

Local Open Scope N_scope.

(** ** Text *)

(** A Python [str]: a sequence of code points, each below [0x110000]. *)
Definition pystr := list N.

(** The text of a Rocq string literal, one code point per character. *)
Definition py (s : string) : pystr :=
  map Ascii.N_of_ascii (String.list_ascii_of_string s).
Arguments py s%_string_scope.

(** [s * n] for a string [s] and an [int] [n]: empty when [n <= 0]. *)
Definition str_mul (s : pystr) (n : Z) : pystr :=
  concat (replicate (Z.to_nat n) s).

(** [s.startswith(p)] *)
Fixpoint startswith (s p : pystr) : bool :=
  match p, s with
  | [], _ => true
  | _ :: _, [] => false
  | c :: p', d :: s' => (c =? d) && startswith s' p'
  end.

(** The digit of ["0123456789abcdef"] for a value below 16. *)
Definition hexdigit (d : N) : N :=
  if d <? 10 then 48 + d else 87 + d.

(** ['{0:04x}'.format(n)] for [n < 0x10000]. *)
Definition hex4 (n : N) : pystr :=
  [hexdigit (n / 4096 mod 16); hexdigit (n / 256 mod 16);
   hexdigit (n / 16 mod 16); hexdigit (n mod 16)].

(** A 32-bit word as eight lowercase hex digits, most significant first. *)
Definition hex8 (w : N) : pystr :=
  hex4 (w / 65536 mod 65536) ++ hex4 (w mod 65536).

Definition is_lower_hex (c : N) : Prop :=
  (48 <= c <= 57) \/ (97 <= c <= 102).

(** ** SHA-256 (FIPS 180-4), as [hashlib.sha256(...).hexdigest()] *)

Module SHA256.

(** Words are 32 bits wide: sums and left shifts are cut to the low
    32 bits. *)
Definition mask32 : N := 0xffffffff.
Definition add32 (x y : N) : N := N.land (x + y) mask32.
Definition shl32 (x n : N) : N := N.land (N.shiftl x n) mask32.
Definition rotr (n x : N) : N := N.lor (N.shiftr x n) (shl32 x (32 - n)).
Definition shr (n x : N) : N := N.shiftr x n.
Definition not32 (x : N) : N := N.lxor x mask32.

Definition Ch (x y z : N) : N := N.lxor (N.land x y) (N.land (not32 x) z).
Definition Maj (x y z : N) : N :=
  N.lxor (N.lxor (N.land x y) (N.land x z)) (N.land y z).
Definition Sigma0 (x : N) : N := N.lxor (N.lxor (rotr 2 x) (rotr 13 x)) (rotr 22 x).
Definition Sigma1 (x : N) : N := N.lxor (N.lxor (rotr 6 x) (rotr 11 x)) (rotr 25 x).
Definition sigma0 (x : N) : N := N.lxor (N.lxor (rotr 7 x) (rotr 18 x)) (shr 3 x).
Definition sigma1 (x : N) : N := N.lxor (N.lxor (rotr 17 x) (rotr 19 x)) (shr 10 x).

(** FIPS 180-4, 4.2.2 and 5.3.3: the constants are the first 32 bits of
    the fractional parts of the cube roots of the first 64 primes, the
    initial hash value those of the square roots of the first 8. *)
Definition is_prime (n : N) : bool :=
  (2 <=? n) && forallb (fun d => negb (n mod N.of_nat d =? 0)) (seq 2 (N.to_nat n - 2)).

Definition primes : list N :=
  Eval vm_compute in filter is_prime (map N.of_nat (seq 2 310)).

(** The largest [r + m], [m < 2 ^ bits], whose [k]-th power is at most [x]. *)
Fixpoint root_search (bits : nat) (k x r : N) : N :=
  match bits with
  | O => r
  | S b =>
      let r' := r + 2 ^ N.of_nat b in
      root_search b k x (if r' ^ k <=? x then r' else r)
  end.

Definition root_fraction (k p : N) : N :=
  N.land (root_search 40 k (N.shiftl p (32 * k)) 0) mask32.

Definition K : list N := Eval vm_compute in map (root_fraction 3) primes.

(** The eight working words a..h, also the running hash value. *)
Record state := State {
  sa : N; sb : N; sc : N; sd : N; se : N; sf : N; sg : N; sh : N }.

Definition H0 : state :=
  Eval vm_compute in
    match map (root_fraction 2) primes with
    | a :: b :: c :: d :: e :: f :: g :: h :: _ => State a b c d e f g h
    | _ => State 0 0 0 0 0 0 0 0
    end.

(** Padding: a [0x80] byte, zero bytes up to 56 modulo 64, then the
    message length in bits as a 64-bit big-endian integer. *)
Definition be_bytes (k : nat) (x : N) : list N :=
  map (fun i => N.shiftr x (8 * N.of_nat i) mod 256) (rev (seq 0 k)).

Definition pad (msg : list N) : list N :=
  let len := N.of_nat (length msg) in
  let zeros := N.to_nat ((119 - len mod 64) mod 64) in
  msg ++ [0x80] ++ replicate zeros 0 ++ be_bytes 8 (8 * len).

(** Big-endian 32-bit words of a byte string. *)
Fixpoint words (fuel : nat) (bs : list N) : list N :=
  match fuel, bs with
  | S fuel', b0 :: b1 :: b2 :: b3 :: bs' =>
      (b0 * 16777216 + b1 * 65536 + b2 * 256 + b3) :: words fuel' bs'
  | _, _ => []
  end.

(** The message schedule, most recent word first: [w] holds
    W(t-1), W(t-2), ..., and [n] more words are appended. *)
Fixpoint schedule (n : nat) (w : list N) : list N :=
  match n with
  | O => w
  | S n' =>
      let wt := add32 (add32 (sigma1 (nth 1 w 0)) (nth 6 w 0))
                      (add32 (sigma0 (nth 14 w 0)) (nth 15 w 0)) in
      schedule n' (wt :: w)
  end.

Definition round (s : state) (kw : N * N) : state :=
  let '(k, w) := kw in
  let t1 := add32 (add32 (add32 (add32 (sh s) (Sigma1 (se s)))
                                (Ch (se s) (sf s) (sg s))) k) w in
  let t2 := add32 (Sigma0 (sa s)) (Maj (sa s) (sb s) (sc s)) in
  State (add32 t1 t2) (sa s) (sb s) (sc s) (add32 (sd s) t1) (se s) (sf s) (sg s).

(** One 512-bit block, given as its sixteen words. *)
Definition compress (h : state) (m : list N) : state :=
  let w := rev (schedule 48 (rev m)) in
  let s := fold_left round (combine K w) h in
  State (add32 (sa h) (sa s)) (add32 (sb h) (sb s))
        (add32 (sc h) (sc s)) (add32 (sd h) (sd s))
        (add32 (se h) (se s)) (add32 (sf h) (sf s))
        (add32 (sg h) (sg s)) (add32 (sh h) (sh s)).

Fixpoint blocks (fuel : nat) (h : state) (ws : list N) : state :=
  match fuel, ws with
  | S fuel', _ :: _ => blocks fuel' (compress h (firstn 16 ws)) (skipn 16 ws)
  | _, _ => h
  end.

(** The digest of a byte string, as its eight 32-bit words. *)
Definition digest (msg : list N) : state :=
  let bs := pad msg in
  blocks (length bs) H0 (words (length bs) bs).

(** [sha256(msg).hexdigest()] *)
Definition hexdigest (msg : list N) : pystr :=
  let s := digest msg in
  hex8 (sa s) ++ hex8 (sb s) ++ hex8 (sc s) ++ hex8 (sd s) ++
  hex8 (se s) ++ hex8 (sf s) ++ hex8 (sg s) ++ hex8 (sh s).

End SHA256.

(** ** [json.dumps] *)

(** [int.__repr__]: decimal digits without leading zeros, ["-"] first
    for a negative number. *)
Fixpoint uint_chars (d : Decimal.uint) : pystr :=
  match d with
  | Decimal.Nil => []
  | Decimal.D0 d' => 48 :: uint_chars d'
  | Decimal.D1 d' => 49 :: uint_chars d'
  | Decimal.D2 d' => 50 :: uint_chars d'
  | Decimal.D3 d' => 51 :: uint_chars d'
  | Decimal.D4 d' => 52 :: uint_chars d'
  | Decimal.D5 d' => 53 :: uint_chars d'
  | Decimal.D6 d' => 54 :: uint_chars d'
  | Decimal.D7 d' => 55 :: uint_chars d'
  | Decimal.D8 d' => 56 :: uint_chars d'
  | Decimal.D9 d' => 57 :: uint_chars d'
  end.

Definition int_repr (z : Z) : pystr :=
  match Z.to_int z with
  | Decimal.Pos d => uint_chars d
  | Decimal.Neg d => 45 :: uint_chars d
  end.

(** One character of [json.encoder.py_encode_basestring_ascii]: printable
    ASCII other than the quote and the backslash is kept; the quote, the
    backslash and [\b \f \n \r \t] get their two-character escape; any
    other code point below [0x10000] becomes [\uXXXX]; a code point from
    [0x10000] on becomes the [\uXXXX\uXXXX] of its surrogate pair. *)
Definition escape_char (c : N) : pystr :=
  if c =? 34 then [92; 34]
  else if c =? 92 then [92; 92]
  else if c =? 8 then [92; 98]
  else if c =? 12 then [92; 102]
  else if c =? 10 then [92; 110]
  else if c =? 13 then [92; 114]
  else if c =? 9 then [92; 116]
  else if (32 <=? c) && (c <=? 126) then [c]
  else if c <? 0x10000 then [92; 117] ++ hex4 c
  else
    let n := c - 0x10000 in
    let s1 := N.lor 0xd800 (N.land (N.shiftr n 10) 0x3ff) in
    let s2 := N.lor 0xdc00 (N.land n 0x3ff) in
    [92; 117] ++ hex4 s1 ++ [92; 117] ++ hex4 s2.

Definition encode_basestring_ascii (s : pystr) : pystr :=
  [34] ++ concat (map escape_char s) ++ [34].

(** [sep.join(parts)] *)
Fixpoint join (sep : pystr) (parts : list pystr) : pystr :=
  match parts with
  | [] => []
  | [p] => p
  | p :: ps => p ++ sep ++ join sep ps
  end.

(** [a < b] on [str]: lexicographic on code points. *)
Fixpoint str_ltb (a b : pystr) : bool :=
  match a, b with
  | _, [] => false
  | [], _ :: _ => true
  | x :: a', y :: b' => (x <? y) || ((x =? y) && str_ltb a' b')
  end.

(** [sorted(items)] for the items of a mapping: the keys of a [dict] are
    pairwise distinct, so the order of two items is the order of their
    keys. A stable insertion sort. *)
Fixpoint insert_item {A} (kv : pystr * A) (l : list (pystr * A)) : list (pystr * A) :=
  match l with
  | [] => [kv]
  | kv' :: l' =>
      if str_ltb kv'.1 kv.1 then kv' :: insert_item kv l' else kv :: l
  end.

Definition sort_items {A} (l : list (pystr * A)) : list (pystr * A) :=
  foldr insert_item [] l.

(** [str.encode("utf-8")] on scalar values (it raises on a surrogate code
    point; the text encoded below is ASCII, see [dumps_ascii]). *)
Definition utf8_char (c : N) : list N :=
  if c <? 0x80 then [c]
  else if c <? 0x800 then [N.lor 0xc0 (N.shiftr c 6); N.lor 0x80 (N.land c 0x3f)]
  else if c <? 0x10000 then
    [N.lor 0xe0 (N.shiftr c 12); N.lor 0x80 (N.land (N.shiftr c 6) 0x3f);
     N.lor 0x80 (N.land c 0x3f)]
  else
    [N.lor 0xf0 (N.shiftr c 18); N.lor 0x80 (N.land (N.shiftr c 12) 0x3f);
     N.lor 0x80 (N.land (N.shiftr c 6) 0x3f); N.lor 0x80 (N.land c 0x3f)].

Definition encode_utf8 (s : pystr) : list N := concat (map utf8_char s).

(** A Unicode scalar value: a code point that is not a surrogate. *)
Definition scalar (c : N) : Prop :=
  c < 0xD800 \/ (0xDFFF < c /\ c < 0x110000).

(** The characters that follow a value inside a list or a mapping:
    the comma and the two closing brackets. *)
Definition delimiter (c : N) : Prop := c = 44 \/ c = 93 \/ c = 125.

Definition delimited (r : pystr) : Prop :=
  match r with
  | [] => True
  | c :: _ => delimiter c
  end.

(** The characters of the text of a float: digits, [+ - . e], and the
    letters of [NaN] and [Infinity]; and those it can start with. *)
Definition float_char (c : N) : Prop :=
  48 <= c <= 57 \/ c = 43 \/ c = 45 \/ c = 46 \/ c = 101 \/
  c = 73 \/ c = 78 \/ c = 97 \/ c = 102 \/ c = 105 \/ c = 110 \/
  c = 116 \/ c = 121.

Definition number_head (c : N) : Prop :=
  48 <= c <= 57 \/ c = 45 \/ c = 73 \/ c = 78.

(** [escape_char] written by cases. *)
Definition short_escape (c : N) : option N :=
  if c =? 34 then Some 34 else if c =? 92 then Some 92
  else if c =? 8 then Some 98 else if c =? 12 then Some 102
  else if c =? 10 then Some 110 else if c =? 13 then Some 114
  else if c =? 9 then Some 116 else None.

Inductive escape_form (c : N) : pystr -> Prop :=
| form_short x :
    short_escape c = Some x -> escape_form c [92; x]
| form_plain :
    32 <= c <= 126 -> c <> 34 -> c <> 92 -> escape_form c [c]
| form_bmp :
    short_escape c = None -> (c < 32 \/ 126 < c) -> c < 0x10000 ->
    escape_form c ([92; 117] ++ hex4 c)
| form_pair :
    0x10000 <= c ->
    escape_form c ([92; 117] ++ hex4 (0xd800 + ((c - 0x10000) / 1024) mod 1024)
                   ++ [92; 117] ++ hex4 (0xdc00 + (c - 0x10000) mod 1024)).

(** The characters of the text of an integer. *)
Definition int_char (c : N) : Prop := 48 <= c <= 57 \/ c = 45.

(** A character of ASCII, which UTF-8 writes as the one byte. *)
Definition ascii (c : N) : Prop := c < 128.

(** What follows the first item of a sequence: each further item after
    a comma, then the text [r] that starts with the closing bracket. *)
Fixpoint rest (ps : list pystr) (r : pystr) : pystr :=
  match ps with
  | [] => r
  | q :: qs => 44 :: q ++ rest qs r
  end.

(** What a call does: it returns, it raises, or it is still running
    when the iterations allowed to its loop ([fuel]) are used up. *)
Inductive outcome (A : Type) : Type :=
| Ret (a : A)
| Raise
| OutOfFuel.
Arguments Ret {A} a.
Arguments Raise {A}.
Arguments OutOfFuel {A}.

Section Model.

(** Python's [float] and the text [json.dumps] writes for one
    ([float.__repr__], or [NaN], [Infinity], [-Infinity]). *)
Context {float : Type}.
Variable floatstr : float -> pystr.

(** The payloads [json.dumps] accepts: [None], [bool], [int], [float],
    [str], [list] and [dict] with [str] keys (in insertion order). *)
#[warnings="-register-all"]
Inductive json : Type :=
| JNull
| JBool (b : bool)
| JInt (z : Z)
| JFloat (f : float)
| JStr (s : pystr)
| JList (l : list json)
| JDict (d : list (pystr * json)).

Definition dump_item (kv : pystr * pystr) : pystr :=
  encode_basestring_ascii kv.1 ++ [58] ++ kv.2.

(** [json.dumps(v, separators=(",", ":"), sort_keys=True)]. The values
    of a mapping are written before its items are sorted; the sort
    looks at keys only, so the text is that of sorting first. *)
Fixpoint dumps (v : json) : pystr :=
  match v with
  | JNull => py "null"
  | JBool true => py "true"
  | JBool false => py "false"
  | JInt z => int_repr z
  | JFloat f => floatstr f
  | JStr s => encode_basestring_ascii s
  | JList l => [91] ++ join [44] (map dumps l) ++ [93]
  | JDict d =>
      [123] ++
      join [44] (map dump_item
                     (sort_items (map (fun '(k, x) => (k, dumps x)) d))) ++
      [125]
  end.

(** A payload whose strings and keys hold Unicode scalar values only. *)
#[warnings="-register-all"]
Inductive wf_json : json -> Prop :=
| wf_null : wf_json JNull
| wf_bool b : wf_json (JBool b)
| wf_int z : wf_json (JInt z)
| wf_float f : wf_json (JFloat f)
| wf_str s : Forall scalar s -> wf_json (JStr s)
| wf_list l : Forall wf_json l -> wf_json (JList l)
| wf_dict d :
    Forall (fun kv => Forall scalar kv.1 /\ wf_json kv.2) d -> wf_json (JDict d).

(** The same payload: equal, but for the order in which the items of a
    mapping were inserted ([==] on [dict] does not see it either). *)
#[warnings="-register-all"]
Inductive json_eq : json -> json -> Prop :=
| eq_null : json_eq JNull JNull
| eq_bool b : json_eq (JBool b) (JBool b)
| eq_int z : json_eq (JInt z) (JInt z)
| eq_float f : json_eq (JFloat f) (JFloat f)
| eq_str s : json_eq (JStr s) (JStr s)
| eq_list l1 l2 : Forall2 json_eq l1 l2 -> json_eq (JList l1) (JList l2)
| eq_dict d1 d2 d1' d2' :
    Permutation d1 d1' -> Permutation d2 d2' ->
    Forall2 (fun kv1 kv2 => kv1.1 = kv2.1 /\ json_eq kv1.2 kv2.2) d1' d2' ->
    json_eq (JDict d1) (JDict d2).

(** ** Blocks *)

Record Block := mkBlock {
  index : Z;
  timestamp : float;
  data : json;
  previous_hash : pystr;
  nonce : Z;
  hash : pystr }.

Definition block_string (b : Block) : pystr :=
  dumps (JDict [(py "index", JInt (index b));
                (py "timestamp", JFloat (timestamp b));
                (py "data", data b);
                (py "previous_hash", JStr (previous_hash b));
                (py "nonce", JInt (nonce b))]).

(** [Block.compute_hash] *)
Definition compute_hash (b : Block) : pystr :=
  SHA256.hexdigest (encode_utf8 (block_string b)).

(** A block whose data and previous_hash hold scalar values only. *)
Definition wf_block (b : Block) : Prop :=
  wf_json (data b) /\ Forall scalar (previous_hash b).

(** ** The store of [Block] objects

    A [Block] is a mutable object and Python passes references: the
    ledger's chain, the value [getBlock] returns and the argument of
    [mineBlock] may all name the same object. Objects live in a [heap],
    a reference ([loc]) is a position in it, and a new object goes at
    the end. *)
Local Abbreviation loc := nat (only parsing).
Local Abbreviation heap := (list Block) (only parsing).

Definition set_nonce (b : Block) (n : Z) : Block :=
  mkBlock (index b) (timestamp b) (data b) (previous_hash b) n (hash b).

Definition set_hash (b : Block) (d : pystr) : Block :=
  mkBlock (index b) (timestamp b) (data b) (previous_hash b) (nonce b) d.

(** The [Block] objects a list of references names. *)
Definition deref (h : heap) (c : list loc) : option (list Block) :=
  mapM (fun l => h !! l) c.

(** ** The central ledger *)

(** The fields of a [CentralBlockchain]. The file at [persist_path] is
    not part of the state: [_persist] only writes it, and what [_load]
    read from it is an argument of [init]. *)
Record CentralBlockchain := mkLedger {
  difficulty : Z;
  prefix : pystr;
  chain : list loc }.

Definition with_chain (self : CentralBlockchain) (c : list loc) : CentralBlockchain :=
  mkLedger (difficulty self) (prefix self) c.

(** [CentralBlockchain._create_genesis_block], at clock reading [now]. *)
Definition create_genesis_block (now : float) : Block :=
  let genesis :=
    mkBlock 0 now (JStr (py "Genesis Block")) (str_mul (py "0") 64) 0 [] in
  set_hash genesis (compute_hash genesis).

(** [CentralBlockchain.__init__]. [loaded] is the list of blocks [_load]
    made from the file at [persist_path]: empty when the path is unset,
    when there is no such file and when reading or parsing it fails.
    The loaded blocks are new objects. The constructor of [Block]
    checks no type; the blocks here are those whose fields have the
    types the dataclass declares. *)
Definition init (difficulty : Z) (loaded : list Block) (now : float) (h : heap)
  : CentralBlockchain * heap :=
  let self := mkLedger difficulty (str_mul (py "0") difficulty) [] in
  let h1 := h ++ loaded in
  let self1 := with_chain self (seq (length h) (length loaded)) in
  match chain self1 with
  | [] =>
      (with_chain self1 (chain self1 ++ [length h1]),
       h1 ++ [create_genesis_block now])
  | _ :: _ => (self1, h1)
  end.

(** [CentralBlockchain.mineBlock]: the block is changed in place and
    the reference given is the one returned. Each unit of [fuel] is one
    iteration of [while True]. *)
Fixpoint mineBlock (fuel : nat) (self : CentralBlockchain) (h : heap) (block : loc)
  : outcome (heap * loc) :=
  match fuel with
  | O => OutOfFuel
  | S fuel' =>
      match h !! block with
      | None => Raise
      | Some b =>
          let digest := compute_hash b in
          if startswith digest (prefix self)
          then Ret (<[block := set_hash b digest]> h, block)
          else mineBlock fuel' self (<[block := set_nonce b (nonce b + 1)]> h) block
      end
  end.

(** [CentralBlockchain.setBlock], at clock reading [now]. [self.chain[-1]]
    raises on an empty chain. [_persist], called after the append,
    returns at once when [persist_path] is unset and otherwise writes
    the file, which is no part of this state; a failure of that write
    (an exception that leaves [setBlock] after the append) is not
    modelled. *)
Definition setBlock (fuel : nat) (now : float) (data : json)
    (self : CentralBlockchain) (h : heap)
  : outcome (CentralBlockchain * heap * loc) :=
  match last (chain self) ≫= (fun l => h !! l) with
  | None => Raise
  | Some prev =>
      let new_block := mkBlock (index prev + 1) now data (hash prev) 0 [] in
      match mineBlock fuel self (h ++ [new_block]) (length h) with
      | Ret (h', mined) => Ret (with_chain self (chain self ++ [mined]), h', mined)
      | Raise => Raise
      | OutOfFuel => OutOfFuel
      end
  end.

(** [CentralBlockchain.getBlock] *)
Definition getBlock (self : CentralBlockchain) (index : Z) : option loc :=
  if (0 <=? index)%Z && (index <? Z.of_nat (length (chain self)))%Z
  then chain self !! Z.to_nat index
  else None.


(** The loop of [is_valid]: [prev] is [chain[i-1]] and the head of
    [rest] is [chain[i]]. *)
Fixpoint check_links (prefix : pystr) (prev : Block) (rest : list Block) : bool :=
  match rest with
  | [] => true
  | curr :: rest' =>
      if negb (bool_decide (previous_hash curr = hash prev)) then false
      else if negb (bool_decide (compute_hash curr = hash curr)) then false
      else if negb (startswith (hash curr) prefix) then false
      else check_links prefix curr rest'
  end.

Definition is_valid_blocks (prefix : pystr) (c : list Block) : bool :=
  match c with
  | [] => false
  | b0 :: rest =>
      if negb (bool_decide (hash b0 = compute_hash b0)) then false
      else check_links prefix b0 rest
  end.

(** [CentralBlockchain.is_valid] *)
Definition is_valid (self : CentralBlockchain) (h : heap) : option bool :=
  is_valid_blocks (prefix self) <$> deref h (chain self).

(** ** Vocabulary of the statements *)

(** A block with its hash set to the digest of its own fields. *)
Definition seal (b : Block) : Block := set_hash b (compute_hash b).

(** The digest of [b] at nonce [n] starts with the prefix [p]. *)
Definition nonce_ok (p : pystr) (b : Block) (n : Z) : bool :=
  startswith (compute_hash (set_nonce b n)) p.

(** The nonce the loop of [mineBlock] stops at within [fuel] iterations:
    it tries [nonce b], [nonce b + 1], ... in this order. *)
Fixpoint search (fuel : nat) (p : pystr) (b : Block) : option Z :=
  match fuel with
  | O => None
  | S fuel' =>
      if nonce_ok p b (nonce b) then Some (nonce b)
      else search fuel' p (set_nonce b (nonce b + 1))
  end.

(** The three checks [is_valid] makes on [curr = chain[i]] against
    [prev = chain[i-1]] under the prefix [p]. *)
Definition link_ok (p : pystr) (prev curr : Block) : Prop :=
  previous_hash curr = hash prev /\
  hash curr = compute_hash curr /\
  startswith (hash curr) p = true.

(** Every reference of the chain names an object, no object is in the
    chain twice, and the prefix is the one [__init__] computed. *)
Definition ledger_ok (self : CentralBlockchain) (h : heap) : Prop :=
  Forall (fun l => (l < length h)%nat) (chain self) /\
  NoDup (chain self) /\
  prefix self = str_mul (py "0") (difficulty self).

(** [appends n s s']: [n] calls of [setBlock] in a row, each of which
    returned, lead from the ledger and store [s] to [s']. *)
Inductive appends : nat -> CentralBlockchain * heap -> CentralBlockchain * heap -> Prop :=
| appends_O s : appends O s s
| appends_S n s self h fuel now d self' h' l :
    appends n s (self, h) ->
    setBlock fuel now d self h = Ret (self', h', l) ->
    appends (S n) s (self', h').

(** The fields of a block, and [changed f b b']: [b'] is [b] with
    another value in field [f] and nothing else changed. *)
Inductive field : Type :=
| FIndex | FTimestamp | FData | FPreviousHash | FNonce | FHash.

#[global] Instance field_eq_dec : EqDecision field.
Proof. solve_decision. Defined.

Definition changed (f : field) (b b' : Block) : Prop :=
  match f with
  | FIndex =>
      index b' <> index b /\
      b' = mkBlock (index b') (timestamp b) (data b) (previous_hash b) (nonce b) (hash b)
  | FTimestamp =>
      timestamp b' <> timestamp b /\
      b' = mkBlock (index b) (timestamp b') (data b) (previous_hash b) (nonce b) (hash b)
  | FData =>
      data b' <> data b /\
      b' = mkBlock (index b) (timestamp b) (data b') (previous_hash b) (nonce b) (hash b)
  | FPreviousHash =>
      previous_hash b' <> previous_hash b /\
      b' = mkBlock (index b) (timestamp b) (data b) (previous_hash b') (nonce b) (hash b)
  | FNonce =>
      nonce b' <> nonce b /\
      b' = mkBlock (index b) (timestamp b) (data b) (previous_hash b) (nonce b') (hash b)
  | FHash =>
      hash b' <> hash b /\
      b' = mkBlock (index b) (timestamp b) (data b) (previous_hash b) (nonce b) (hash b')
  end.

(** SHA-256 does not collide on the canonical encodings of [b] and
    [b']: they have the same digest only if they are the same bytes. *)
Definition no_collision (b b' : Block) : Prop :=
  compute_hash b = compute_hash b' ->
  encode_utf8 (block_string b) = encode_utf8 (block_string b').

(** The public operations of the ledger, and the ledger and store a call
    leaves behind. The three read operations assign nothing. *)
Inductive call : Type :=
| CallSetBlock (now : float) (d : json)
| CallGetBlock (i : Z)
| CallBlocksExplorer
| CallIsValid
| CallMineBlock (block : loc).

Definition after (fuel : nat) (c : call) (self : CentralBlockchain) (h : heap)
  : outcome (CentralBlockchain * heap) :=
  match c with
  | CallSetBlock now d =>
      match setBlock fuel now d self h with
      | Ret (self', h', _) => Ret (self', h')
      | Raise => Raise
      | OutOfFuel => OutOfFuel
      end
  | CallGetBlock _ | CallBlocksExplorer | CallIsValid => Ret (self, h)
  | CallMineBlock block =>
      match mineBlock fuel self h block with
      | Ret (h', _) => Ret (self, h')
      | Raise => Raise
      | OutOfFuel => OutOfFuel
      end
  end.

(** The first block of the chain is a genesis block: index 0, a
    [previous_hash] of 64 zeros and a hash that is set. *)
Definition genesis_first (self : CentralBlockchain) (h : heap) : Prop :=
  exists l g, chain self !! O = Some l /\ h !! l = Some g /\
    index g = 0%Z /\ previous_hash g = str_mul (py "0") 64 /\ hash g <> [].

(** The [--mine] branch of [main], at clock reading [now]: a block is
    made from the text given, with the length of the chain as its
    index, and mined; it is printed and not appended.
    [bc.chain[-1]] raises on an empty chain. *)
Definition main_mine (fuel : nat) (now : float) (mine : pystr)
    (self : CentralBlockchain) (h : heap) : outcome (heap * loc) :=
  match last (chain self) ≫= (fun l => h !! l) with
  | None => Raise
  | Some tip =>
      let temp :=
        mkBlock (Z.of_nat (length (chain self))) now (JStr mine) (hash tip) 0 [] in
      mineBlock fuel self (h ++ [temp]) (length h)
  end.

(** A payload whose mappings have pairwise distinct keys, as every
    [dict] has. *)
#[warnings="-register-all"]
Inductive distinct_keys : json -> Prop :=
| dk_null : distinct_keys JNull
| dk_bool b : distinct_keys (JBool b)
| dk_int z : distinct_keys (JInt z)
| dk_float f : distinct_keys (JFloat f)
| dk_str s : distinct_keys (JStr s)
| dk_list l : Forall distinct_keys l -> distinct_keys (JList l)
| dk_dict d :
    NoDup (map fst d) -> Forall (fun kv => distinct_keys kv.2) d ->
    distinct_keys (JDict d).

End Model.

Arguments json : clear implicits.
Arguments Block : clear implicits.
Arguments compute_hash : simpl never.
Arguments SHA256.hexdigest : simpl never.

Abbreviation loc := nat (only parsing).
Abbreviation heap float := (list (Block float)) (only parsing).

(** Induction on a payload, with the property in hand for the members
    of a list and the values of a mapping. *)
Section JsonInduction.

Context {float : Type} (P : json float -> Prop).
Hypothesis Hnull : P JNull.
Hypothesis Hbool : forall b, P (JBool b).
Hypothesis Hint : forall z, P (JInt z).
Hypothesis Hfloat : forall f, P (JFloat f).
Hypothesis Hstr : forall s, P (JStr s).
Hypothesis Hlist : forall l, Forall P l -> P (JList l).
Hypothesis Hdict : forall d, Forall (fun kv => P kv.2) d -> P (JDict d).

Fixpoint json_induction (v : json float) : P v :=
  match v with
  | JNull => Hnull
  | JBool b => Hbool b
  | JInt z => Hint z
  | JFloat f => Hfloat f
  | JStr s => Hstr s
  | JList l =>
      Hlist l ((fix members (l : list (json float)) : Forall P l :=
                  match l with
                  | [] => @List.Forall_nil _ P
                  | x :: l' => @List.Forall_cons _ P x l' (json_induction x) (members l')
                  end) l)
  | JDict d =>
      Hdict d ((fix values (d : list (pystr * json float))
                  : Forall (fun kv => P kv.2) d :=
                  match d with
                  | [] => @List.Forall_nil _ _
                  | (k, x) :: d' =>
                      @List.Forall_cons _ (fun kv => P kv.2) (k, x) d'
                        (json_induction x) (values d')
                  end) d)
  end.

End JsonInduction.

(** The first character of the text of a payload tells its kind. *)
Definition opener {float} (v : json float) (c : N) : Prop :=
  match v with
  | JNull => c = 110
  | JBool b => c = if b then 116 else 102
  | JInt _ | JFloat _ => number_head c
  | JStr _ => c = 34
  | JList _ => c = 91
  | JDict _ => c = 123
  end%N.

(** The number of ['0'] characters a string starts with. *)
Fixpoint leading_zeros (s : pystr) : nat :=
  match s with
  | 48 :: s' => S (leading_zeros s')
  | _ => O
  end.

(** ** Concrete floats

    Floats of integral value below [10^16] in magnitude, which Python
    writes as the integer followed by [.0] ([1700000000.0]). They give
    the clock readings of the examples below. *)
Definition whole_floatstr (z : Z) : pystr := int_repr z ++ py ".0".

(** ** Concrete ledgers *)

(** A new ledger of difficulty [d] in an empty store, made at clock
    reading [1700000000.0]. *)
Definition ex_fresh (d : Z) : CentralBlockchain * heap Z :=
  init whole_floatstr d [] 1700000000%Z [].

(** An unsealed candidate, as [main] builds one for [--mine]. *)
Definition ex_candidate : Block Z :=
  mkBlock 1 1700000001%Z (JStr (py "a")) (str_mul (py "0") 64) 0 [].

(** A block of some other chain, as a file at [persist_path] may hold. *)
Definition ex_foreign : Block Z :=
  mkBlock 5 0%Z (JStr (py "x")) (py "abc") 0 [].

(** Two different strings: the one character U+1F600, and the two
    surrogate code points U+D83D U+DE00. *)
Definition ex_astral : json Z := JStr [0x1F600].
Definition ex_surrogates : json Z := JStr [0xD83D; 0xDE00].

(** The ledger [ex_fresh 1] after [setBlock("a")] at clock reading
    [1700000001.0]. *)
Definition ex_one :=
  Eval vm_compute in
  match setBlock whole_floatstr 64 1700000001%Z (JStr (py "a"))
          (ex_fresh 1).1 (ex_fresh 1).2 with
  | Ret (s, h, _) => (s, h)
  | _ => ex_fresh 1
  end.

(** The same mapping, its two items inserted in either order. *)
Definition ex_ab : json Z := JDict [(py "a", JInt 1); (py "b", JInt 2)].
Definition ex_ba : json Z := JDict [(py "b", JInt 2); (py "a", JInt 1)].

(** The last block of [ex_one] with other data. *)
Definition ex_rewritten : Block Z :=
  Eval vm_compute in
  match ex_one.2 !! 1%nat with
  | Some tip =>
      mkBlock (index tip) (timestamp tip) (JStr (py "z")) (previous_hash tip)
        (nonce tip) (hash tip)
  | None => ex_candidate
  end.

(** * Facts *)

(** The FIPS 180-4 test vectors. *)
Example sha256_empty :
  SHA256.hexdigest [] =
  py "e3b0c44298fc1c149afbf4c8996fb92427ae41e4649b934ca495991b7852b855".
Proof. vm_compute. reflexivity. Qed.

Example sha256_abc :
  SHA256.hexdigest (py "abc") =
  py "ba7816bf8f01cfea414140de5dae2223b00361a396177a9cb410ff61f20015ad".
Proof. vm_compute. reflexivity. Qed.

Example sha256_two_blocks :
  SHA256.hexdigest (py "abcdbcdecdefdefgefghfghighijhijkijkljklmklmnlmnomnopnopq") =
  py "248d6a61d20638b8e5c026930c3e6039a33ce45964ff2167f6ecedd419db06c1".
Proof. vm_compute. reflexivity. Qed.

(** ** Text *)

Lemma startswith_nil (s : pystr) : startswith s [] = true.
Proof. now destruct s. Qed.

Lemma startswith_length (s p : pystr) :
  startswith s p = true -> (length p <= length s)%nat.
Proof.
  revert s. induction p as [|c p IH]; intros [|d s] H; simpl in *; try lia.
  apply andb_true_iff in H as [_ H]. apply IH in H. lia.
Qed.

Lemma str_mul_length (c : N) (n : Z) : length (str_mul [c] n) = Z.to_nat n.
Proof.
  unfold str_mul. induction (Z.to_nat n) as [|k IH]; simpl; [reflexivity|].
  now rewrite IH.
Qed.

Lemma str_mul_replicate (c : N) (n : Z) : str_mul [c] n = replicate (Z.to_nat n) c.
Proof.
  unfold str_mul. induction (Z.to_nat n) as [|k IH]; simpl; [reflexivity|].
  now rewrite IH.
Qed.

Lemma leading_zeros_cons (c : N) (s : pystr) :
  leading_zeros (c :: s) = if 48 =? c then S (leading_zeros s) else O.
Proof.
  destruct c as [|p]; [reflexivity|].
  do 7 (destruct p as [p|p|]; try reflexivity).
Qed.

(** A string starts with [d] zeros exactly when it has at least [d]
    leading ['0'] characters. *)
Lemma startswith_zeros (s : pystr) (d : Z) :
  startswith s (str_mul (py "0") d) = true <-> (Z.to_nat d <= leading_zeros s)%nat.
Proof.
  change (py "0") with [48]. rewrite str_mul_replicate.
  generalize (Z.to_nat d) as k. clear d.
  induction s as [|c s IH]; intros [|k].
  - simpl. split; [lia|reflexivity].
  - simpl. split; [discriminate|lia].
  - rewrite startswith_nil. split; [lia|reflexivity].
  - rewrite leading_zeros_cons. cbn [replicate startswith].
    destruct (48 =? c); cbn [andb].
    + rewrite IH. lia.
    + split; [discriminate|lia].
Qed.

Lemma hexdigit_lower (d : N) : d < 16 -> is_lower_hex (hexdigit d).
Proof.
  unfold hexdigit, is_lower_hex. intros H.
  destruct (N.ltb_spec d 10); lia.
Qed.

Lemma hex4_lower (n : N) : Forall is_lower_hex (hex4 n).
Proof.
  unfold hex4.
  repeat (apply Forall_cons_2; [apply hexdigit_lower; now apply N.mod_lt|]).
  apply Forall_nil_2.
Qed.

Lemma hex8_lower (w : N) : Forall is_lower_hex (hex8 w).
Proof. unfold hex8. apply Forall_app; split; apply hex4_lower. Qed.

Lemma hex8_length (w : N) : length (hex8 w) = 8%nat.
Proof. reflexivity. Qed.

Lemma hexdigest_length (msg : list N) : length (SHA256.hexdigest msg) = 64%nat.
Proof. unfold SHA256.hexdigest. cbv zeta. now rewrite !length_app, !hex8_length. Qed.

Lemma hexdigest_lower (msg : list N) : Forall is_lower_hex (SHA256.hexdigest msg).
Proof.
  unfold SHA256.hexdigest. cbv zeta.
  repeat first [apply hex8_lower | apply Forall_app; split].
Qed.

(** ** The text of integers and strings *)

Lemma hexdigit_inj (a b : N) : a < 16 -> b < 16 -> hexdigit a = hexdigit b -> a = b.
Proof.
  unfold hexdigit. intros Ha Hb.
  destruct (N.ltb_spec a 10), (N.ltb_spec b 10); lia.
Qed.

(** A number below [0x10000] is the value of its four hex digits. *)
Lemma nibbles (a : N) :
  a < 65536 ->
  a = 4096 * (a / 4096 mod 16) + 256 * (a / 256 mod 16) + 16 * (a / 16 mod 16) + a mod 16.
Proof.
  intros Ha.
  pose proof (N.div_mod a 16 ltac:(lia)) as E0.
  pose proof (N.div_mod (a / 16) 16 ltac:(lia)) as E1.
  pose proof (N.div_mod (a / 256) 16 ltac:(lia)) as E2.
  assert (Q1 : a / 16 / 16 = a / 256) by (rewrite N.Div0.div_div; reflexivity).
  assert (Q2 : a / 256 / 16 = a / 4096) by (rewrite N.Div0.div_div; reflexivity).
  assert (Q3 : a / 4096 < 16) by (apply N.Div0.div_lt_upper_bound; lia).
  rewrite (N.mod_small (a / 4096) 16 Q3).
  rewrite Q1 in E1. rewrite Q2 in E2. lia.
Qed.

Lemma hex4_inj (a b : N) : a < 65536 -> b < 65536 -> hex4 a = hex4 b -> a = b.
Proof.
  intros Ha Hb H. unfold hex4 in H. injection H as H3 H2 H1 H0.
  apply hexdigit_inj in H3, H2, H1, H0; try (apply N.mod_lt; lia).
  rewrite (nibbles a Ha), (nibbles b Hb). congruence.
Qed.

Lemma hex4_length (a : N) : length (hex4 a) = 4%nat.
Proof. reflexivity. Qed.

(** The two halves of a surrogate pair, in arithmetic. *)
Lemma lor_low_bits (hi x : N) :
  hi = 0xd800 \/ hi = 0xdc00 -> x < 1024 -> N.lor hi x = hi + x.
Proof.
  intros Hhi Hx.
  assert (Hall : forallb (fun y => (N.lor 0xd800 y =? 0xd800 + y)
                                   && (N.lor 0xdc00 y =? 0xdc00 + y))
                         (map N.of_nat (seq 0 1024)) = true)
    by (vm_compute; reflexivity).
  rewrite forallb_forall in Hall. specialize (Hall x).
  destruct (andb_prop _ _ (Hall ltac:(
    apply in_map_iff; exists (N.to_nat x); split; [lia|apply in_seq; lia]))) as [H1 H2].
  apply N.eqb_eq in H1, H2. destruct Hhi; subst hi; assumption.
Qed.

Lemma high_surrogate (n : N) :
  N.lor 0xd800 (N.land (N.shiftr n 10) 0x3ff) = 0xd800 + (n / 1024) mod 1024.
Proof.
  change 0x3ff with (N.ones 10). rewrite N.land_ones, N.shiftr_div_pow2.
  change (2 ^ 10) with 1024. apply lor_low_bits; [now left|]. apply N.mod_lt. lia.
Qed.

Lemma low_surrogate (n : N) :
  N.lor 0xdc00 (N.land n 0x3ff) = 0xdc00 + n mod 1024.
Proof.
  change 0x3ff with (N.ones 10). rewrite N.land_ones.
  change (2 ^ 10) with 1024. apply lor_low_bits; [now right|]. apply N.mod_lt. lia.
Qed.

Lemma escape_char_form (c : N) : escape_form c (escape_char c).
Proof.
  unfold escape_char.
  destruct (N.eqb_spec c 34) as [->|H1]; [now apply form_short|].
  destruct (N.eqb_spec c 92) as [->|H2]; [now apply form_short|].
  destruct (N.eqb_spec c 8) as [->|H3]; [now apply form_short|].
  destruct (N.eqb_spec c 12) as [->|H4]; [now apply form_short|].
  destruct (N.eqb_spec c 10) as [->|H5]; [now apply form_short|].
  destruct (N.eqb_spec c 13) as [->|H6]; [now apply form_short|].
  destruct (N.eqb_spec c 9) as [->|H7]; [now apply form_short|].
  assert (Hs : short_escape c = None).
  { unfold short_escape.
    repeat match goal with
           | |- context [?x =? ?y] => destruct (N.eqb_spec x y); [contradiction|]
           end. reflexivity. }
  destruct (N.leb_spec 32 c); cbn [andb].
  - destruct (N.leb_spec c 126).
    + now apply form_plain.
    + destruct (N.ltb_spec c 0x10000).
      * apply form_bmp; [exact Hs|now right|assumption].
      * cbv zeta. rewrite high_surrogate, low_surrogate. now apply form_pair.
  - destruct (N.ltb_spec c 0x10000).
    + apply form_bmp; [exact Hs|now left|assumption].
    + lia.
Qed.

Lemma short_escape_Some (c x : N) :
  short_escape c = Some x ->
  x <> 117 /\ (c < 32 \/ c = 34 \/ c = 92) /\
  forall c', short_escape c' = Some x -> c' = c.
Proof.
  unfold short_escape.
  repeat match goal with
         | |- context [c =? ?y] => destruct (N.eqb_spec c y) as [->|?]
         end; intros [= <-]; (split; [lia|split; [lia|]]); intros c';
    repeat match goal with
           | |- context [c' =? ?y] => destruct (N.eqb_spec c' y) as [->|?]
           end; intros Hx; try reflexivity; try congruence.
Qed.

Lemma cons_eq_inv {A} (x y : A) (l k : list A) : x :: l = y :: k -> x = y /\ l = k.
Proof. intros [= -> ->]. split; reflexivity. Qed.

(** Quotients and remainders as unknowns, for [lia]. *)
Ltac name_div_mod :=
  repeat match goal with
         | H : context [N.modulo ?a ?b] |- _ =>
             let m := fresh "m" in set (m := N.modulo a b) in *; clearbody m
         | |- context [N.modulo ?a ?b] =>
             let m := fresh "m" in set (m := N.modulo a b) in *; clearbody m
         | H : context [N.div ?a ?b] |- _ =>
             let q := fresh "q" in set (q := N.div a b) in *; clearbody q
         | |- context [N.div ?a ?b] =>
             let q := fresh "q" in set (q := N.div a b) in *; clearbody q
         end.

(** The escapes are a prefix code on scalar values: the text of one
    character followed by anything is the text of no other. *)
Lemma escape_char_prefix (c1 c2 : N) (r1 r2 : pystr) :
  scalar c1 -> scalar c2 ->
  escape_char c1 ++ r1 = escape_char c2 ++ r2 -> c1 = c2 /\ r1 = r2.
Proof.
  intros S1 S2 H. unfold scalar in S1, S2.
  pose proof (escape_char_form c1) as F1. pose proof (escape_char_form c2) as F2.
  remember (escape_char c1) as e1 eqn:He1. remember (escape_char c2) as e2 eqn:He2.
  clear He1 He2.
  pose proof (N.mod_lt ((c1 - 65536) / 1024) 1024 ltac:(lia)) as M1.
  pose proof (N.mod_lt ((c2 - 65536) / 1024) 1024 ltac:(lia)) as M2.
  pose proof (N.mod_lt (c1 - 65536) 1024 ltac:(lia)) as M3.
  pose proof (N.mod_lt (c2 - 65536) 1024 ltac:(lia)) as M4.
  destruct F1 as [x1 E1|P1 Q1 R1|E1 O1 B1|A1];
    destruct F2 as [x2 E2|P2 Q2 R2|E2 O2 B2|A2];
    rewrite <- ?app_assoc in H; cbn [app] in H;
    apply cons_eq_inv in H as [Hc H];
    try (destruct (short_escape_Some _ _ E1) as (Hne1 & Hlow1 & Huniq1));
    try (destruct (short_escape_Some _ _ E2) as (Hne2 & Hlow2 & Huniq2));
    try (exfalso; clear M1 M2 M3 M4; lia);
    try (apply cons_eq_inv in H as [Hx H]; try congruence).
  - subst x2. split; [|exact H]. symmetry. now apply Huniq1.
  - auto.
  - apply app_inj_1 in H as [H Hr]; [|now rewrite !hex4_length].
    apply hex4_inj in H; [auto|lia|lia].
  - apply app_inj_1 in H as [H _]; [|now rewrite !hex4_length].
    apply hex4_inj in H; [exfalso| |]; name_div_mod; lia.
  - apply app_inj_1 in H as [H _]; [|now rewrite !hex4_length].
    apply hex4_inj in H; [exfalso| |]; name_div_mod; lia.
  - apply app_inj_1 in H as [Hhi H]; [|now rewrite !hex4_length].
    apply cons_eq_inv in H as [_ H]. apply cons_eq_inv in H as [_ H].
    apply app_inj_1 in H as [Hlo Hr]; [|now rewrite !hex4_length].
    split; [|exact Hr].
    apply hex4_inj in Hhi; [| name_div_mod; lia | name_div_mod; lia].
    apply hex4_inj in Hlo; [| name_div_mod; lia | name_div_mod; lia].
    assert (L1 : (c1 - 65536) / 1024 < 1024).
    { apply N.Div0.div_lt_upper_bound. clear - S1. lia. }
    assert (L2 : (c2 - 65536) / 1024 < 1024).
    { apply N.Div0.div_lt_upper_bound. clear - S2. lia. }
    rewrite (N.mod_small _ _ L1), (N.mod_small _ _ L2) in Hhi.
    pose proof (N.div_mod (c1 - 65536) 1024 ltac:(lia)) as D1.
    pose proof (N.div_mod (c2 - 65536) 1024 ltac:(lia)) as D2.
    clear M1 M2 L1 L2. name_div_mod. lia.
Qed.

Lemma escape_char_head (c : N) : exists f t, escape_char c = f :: t /\ f <> 34.
Proof.
  destruct (escape_char_form c) as [x E|P Q R|E O B|A]; cbn [app];
    eexists _, _; (split; [reflexivity|]); try discriminate.
  exact Q.
Qed.

Lemma escaped_prefix (s1 s2 : pystr) (r1 r2 : pystr) :
  Forall scalar s1 -> Forall scalar s2 ->
  concat (map escape_char s1) ++ 34 :: r1 = concat (map escape_char s2) ++ 34 :: r2 ->
  s1 = s2 /\ r1 = r2.
Proof.
  intros W1. revert s2. induction W1 as [|c1 s1 Hc1 W1 IH]; intros s2 W2 H.
  - destruct W2 as [|c2 s2 Hc2 W2]; cbn [map concat app] in H.
    + now injection H as ->.
    + destruct (escape_char_head c2) as (f & t & E & Hf). rewrite E in H.
      rewrite <- app_assoc in H. cbn [app] in H.
      apply cons_eq_inv in H as [Hq _]. congruence.
  - destruct W2 as [|c2 s2 Hc2 W2]; cbn [map concat app] in H.
    + destruct (escape_char_head c1) as (f & t & E & Hf). rewrite E in H.
      rewrite <- !app_assoc in H. cbn [app] in H.
      apply cons_eq_inv in H as [Hq _]. congruence.
    + rewrite <- !app_assoc in H.
      apply escape_char_prefix in H as [-> H]; [|assumption|assumption].
      apply IH in H as [-> ->]; [|assumption]. split; reflexivity.
Qed.

(** A string is delimited by its quotes: its text followed by anything
    is the text of no other string of scalar values. *)
Lemma encode_basestring_ascii_prefix (s1 s2 : pystr) (r1 r2 : pystr) :
  Forall scalar s1 -> Forall scalar s2 ->
  encode_basestring_ascii s1 ++ r1 = encode_basestring_ascii s2 ++ r2 ->
  s1 = s2 /\ r1 = r2.
Proof.
  intros W1 W2 H. unfold encode_basestring_ascii in H.
  rewrite <- !app_assoc in H. cbn [app] in H. apply cons_eq_inv in H as [_ H].
  now apply escaped_prefix.
Qed.

Lemma uint_chars_digits (d : Decimal.uint) : Forall (fun c => 48 <= c <= 57) (uint_chars d).
Proof. induction d; cbn [uint_chars]; constructor; (lia || assumption). Qed.

Lemma uint_chars_inj (d1 d2 : Decimal.uint) : uint_chars d1 = uint_chars d2 -> d1 = d2.
Proof.
  revert d2. induction d1; intros d2 H; destruct d2; cbn [uint_chars] in H;
    try discriminate; try reflexivity;
    apply cons_eq_inv in H as [_ H]; f_equal; now apply IHd1.
Qed.

Lemma to_int_nonnil (z : Z) :
  match Z.to_int z with
  | Decimal.Pos d => d <> Decimal.Nil
  | Decimal.Neg d => d <> Decimal.Nil
  end.
Proof.
  destruct z as [|p|p]; cbn [Z.to_int]; try discriminate;
    apply DecimalPos.Unsigned.to_uint_nonnil.
Qed.

Lemma int_repr_chars (z : Z) : Forall int_char (int_repr z).
Proof.
  unfold int_repr.
  destruct (Z.to_int z) as [d|d]; [|constructor; [now right|]];
    (eapply Forall_impl; [apply uint_chars_digits|]); intros c Hc; now left.
Qed.

Lemma int_repr_head (z : Z) : exists c t, int_repr z = c :: t /\ int_char c.
Proof.
  pose proof (int_repr_chars z) as Hall. pose proof (to_int_nonnil z) as Hnn.
  unfold int_repr in *. destruct (Z.to_int z) as [d|d].
  - destruct d; try contradiction; cbn [uint_chars] in *;
      eexists _, _; (split; [reflexivity|]); now apply Forall_cons_1 in Hall as [? _].
  - eexists _, _. split; [reflexivity|]. now right.
Qed.

Lemma int_repr_inj (z1 z2 : Z) : int_repr z1 = int_repr z2 -> z1 = z2.
Proof.
  intros H. apply DecimalZ.to_int_inj.
  pose proof (to_int_nonnil z1) as N1. pose proof (to_int_nonnil z2) as N2.
  unfold int_repr in H.
  destruct (Z.to_int z1) as [d1|d1], (Z.to_int z2) as [d2|d2].
  - f_equal. now apply uint_chars_inj.
  - exfalso. pose proof (uint_chars_digits d1) as D. rewrite H in D.
    apply Forall_cons_1 in D as [D _]. lia.
  - exfalso. pose proof (uint_chars_digits d2) as D. rewrite <- H in D.
    apply Forall_cons_1 in D as [D _]. lia.
  - apply cons_eq_inv in H as [_ H]. f_equal. now apply uint_chars_inj.
Qed.

(** A text without delimiters, followed by a delimiter or by nothing,
    ends where the delimiter is. *)
Lemma token_prefix (t1 t2 r1 r2 : pystr) :
  Forall (fun c => ~ delimiter c) t1 -> Forall (fun c => ~ delimiter c) t2 ->
  delimited r1 -> delimited r2 ->
  t1 ++ r1 = t2 ++ r2 -> t1 = t2 /\ r1 = r2.
Proof.
  intros T1. revert t2. induction T1 as [|c1 t1 Hc1 T1 IH]; intros t2 T2 D1 D2 H.
  - destruct T2 as [|c2 t2 Hc2 T2]; cbn [app] in H; [auto|].
    subst r1. cbn [delimited] in D1. contradiction.
  - destruct T2 as [|c2 t2 Hc2 T2]; cbn [app] in H.
    + subst r2. cbn [delimited] in D2. contradiction.
    + apply cons_eq_inv in H as [-> H].
      destruct (IH _ T2 D1 D2 H) as [-> ->]. auto.
Qed.

(** ** Sequences *)

Lemma join_rest (p : pystr) (ps : list pystr) (r : pystr) :
  join [44] (p :: ps) ++ r = p ++ rest ps r.
Proof.
  revert p. induction ps as [|q qs IH]; intros p; [reflexivity|].
  change (join [44] (p :: q :: qs)) with (p ++ [44] ++ join [44] (q :: qs)).
  rewrite <- !app_assoc, IH. reflexivity.
Qed.

Lemma rest_delimited (ps : list pystr) (c : N) (r : pystr) :
  delimiter c -> delimited (rest ps (c :: r)).
Proof. intros Hc. destruct ps; cbn [rest delimited]; [exact Hc|now left]. Qed.

Section Sequences.

Context {A : Type} (text : A -> pystr) (R : A -> A -> Prop) (ok : A -> Prop).
Hypothesis text_head : forall a, exists c t, text a = c :: t /\ ~ delimiter c.

(** The text of [a1], followed by a delimiter, is the text of no other
    well-formed item. *)
Let parses (a1 : A) : Prop :=
  forall a2 r1 r2, ok a2 -> delimited r1 -> delimited r2 ->
    text a1 ++ r1 = text a2 ++ r2 -> R a1 a2 /\ r1 = r2.

Lemma rest_prefix (l1 l2 : list A) (close : N) (r1 r2 : pystr) :
  Forall parses l1 -> Forall ok l2 -> delimiter close -> close <> 44 ->
  rest (map text l1) (close :: r1) = rest (map text l2) (close :: r2) ->
  Forall2 R l1 l2 /\ r1 = r2.
Proof.
  intros P1. revert l2. induction P1 as [|a1 l1 Ha1 P1 IH]; intros l2 O2 Hc Hn H.
  - destruct O2 as [|a2 l2 Ha2 O2]; cbn [map rest] in H.
    + injection H as ->. split; [constructor|reflexivity].
    + apply cons_eq_inv in H as [H _]. contradiction.
  - destruct O2 as [|a2 l2 Ha2 O2]; cbn [map rest] in H.
    + apply cons_eq_inv in H as [H _]. symmetry in H. contradiction.
    + apply cons_eq_inv in H as [_ H].
      apply Ha1 in H as [HR H]; [|assumption|now apply rest_delimited..].
      destruct (IH _ O2 Hc Hn H) as [HF ->]. split; [now constructor|reflexivity].
Qed.

Lemma sequence_prefix (l1 l2 : list A) (close : N) (r1 r2 : pystr) :
  Forall parses l1 -> Forall ok l2 -> delimiter close -> close <> 44 ->
  join [44] (map text l1) ++ close :: r1 = join [44] (map text l2) ++ close :: r2 ->
  Forall2 R l1 l2 /\ r1 = r2.
Proof.
  intros P1 O2 Hc Hn H.
  destruct P1 as [|a1 l1 Ha1 P1], O2 as [|a2 l2 Ha2 O2]; cbn [map] in H.
  - injection H as ->. split; [constructor|reflexivity].
  - rewrite join_rest in H. destruct (text_head a2) as (c & t & E & Hd).
    rewrite E in H. apply cons_eq_inv in H as [-> _]. contradiction.
  - rewrite join_rest in H. destruct (text_head a1) as (c & t & E & Hd).
    rewrite E in H. apply cons_eq_inv in H as [<- _]. contradiction.
  - rewrite !join_rest in H.
    apply Ha1 in H as [HR H]; [|assumption|now apply rest_delimited..].
    destruct (rest_prefix _ _ _ _ _ P1 O2 Hc Hn H) as [HF ->].
    split; [now constructor|reflexivity].
Qed.

End Sequences.

Lemma insert_item_perm {A} (kv : pystr * A) (l : list (pystr * A)) :
  Permutation (insert_item kv l) (kv :: l).
Proof.
  induction l as [|kv' l IH]; cbn [insert_item]; [reflexivity|].
  destruct (str_ltb kv'.1 kv.1); [|reflexivity].
  rewrite IH. apply perm_swap.
Qed.

Lemma sort_items_perm {A} (l : list (pystr * A)) : Permutation (sort_items l) l.
Proof.
  induction l as [|kv l IH]; [reflexivity|].
  unfold sort_items in *. cbn [foldr]. rewrite insert_item_perm. now constructor.
Qed.

(** ** The order of keys *)

Lemma str_ltb_irrefl (a : pystr) : str_ltb a a = false.
Proof.
  induction a as [|x a IH]; [reflexivity|]. cbn [str_ltb].
  rewrite N.ltb_irrefl, N.eqb_refl, IH. reflexivity.
Qed.

Lemma str_ltb_trans (a b c : pystr) :
  str_ltb a b = true -> str_ltb b c = true -> str_ltb a c = true.
Proof.
  revert b c. induction a as [|x a IH]; intros [|y b] [|z c] Hab Hbc;
    cbn [str_ltb] in *; try discriminate; try reflexivity.
  destruct (N.ltb_spec x y), (N.eqb_spec x y), (N.ltb_spec y z), (N.eqb_spec y z),
    (N.ltb_spec x z), (N.eqb_spec x z); cbn [orb andb] in *;
    try discriminate; try reflexivity; try lia.
  eapply IH; eassumption.
Qed.

Lemma str_ltb_total (a b : pystr) :
  a <> b -> str_ltb a b = false -> str_ltb b a = true.
Proof.
  revert b. induction a as [|x a IH]; intros [|y b] Hne Hab;
    cbn [str_ltb] in *; try discriminate; try reflexivity; try congruence.
  destruct (N.ltb_spec x y), (N.eqb_spec x y), (N.ltb_spec y x), (N.eqb_spec y x);
    cbn [orb andb] in *; try discriminate; try reflexivity; try lia.
  subst. apply IH; [congruence|assumption].
Qed.

(** Sorting the items of a mapping with distinct keys gives them in
    the strict order of their keys. *)
Lemma insert_item_sorted {A} (kv : pystr * A) (l : list (pystr * A)) :
  kv.1 ∉ map fst l ->
  StronglySorted (fun a b => str_ltb a.1 b.1 = true) l ->
  StronglySorted (fun a b => str_ltb a.1 b.1 = true) (insert_item kv l).
Proof.
  intros Hnew Hs. induction Hs as [|kv' l Hs IH Hall]; cbn [insert_item].
  - repeat constructor.
  - cbn [map] in Hnew. rewrite not_elem_of_cons in Hnew. destruct Hnew as [Hne Hnew].
    destruct (str_ltb kv'.1 kv.1) eqn:Hlt.
    + constructor; [now apply IH|].
      rewrite insert_item_perm. constructor; assumption.
    + assert (Hkv : str_ltb kv.1 kv'.1 = true) by now apply str_ltb_total.
      constructor; [now constructor|]. constructor; [exact Hkv|].
      eapply Forall_impl; [exact Hall|]. cbv beta. intros x Hx.
      eapply str_ltb_trans; eassumption.
Qed.

Lemma sort_items_sorted {A} (l : list (pystr * A)) :
  NoDup (map fst l) ->
  StronglySorted (fun a b => str_ltb a.1 b.1 = true) (sort_items l).
Proof.
  unfold sort_items. induction l as [|kv l IH]; cbn [map foldr]; intros Hnd.
  - constructor.
  - apply NoDup_cons in Hnd as [Hnew Hnd]. apply insert_item_sorted; [|now apply IH].
    change (foldr insert_item [] l) with (sort_items l).
    now rewrite sort_items_perm.
Qed.

(** The order of insertion does not show in the sorted items. *)
Lemma sort_items_unique {A} (l1 l2 : list (pystr * A)) :
  NoDup (map fst l1) -> Permutation l1 l2 -> sort_items l1 = sort_items l2.
Proof.
  intros Hnd Hp.
  apply (StronglySorted_unique_strong (fun a b => str_ltb a.1 b.1 = true)).
  - intros x1 x2 _ _ H12 H21.
    pose proof (str_ltb_trans _ _ _ H12 H21) as H. rewrite str_ltb_irrefl in H.
    discriminate.
  - now apply sort_items_sorted.
  - apply sort_items_sorted. now rewrite <- Hp.
  - now rewrite !sort_items_perm.
Qed.

(** ** ASCII *)

Lemma lower_hex_ascii (c : N) : is_lower_hex c -> ascii c.
Proof. unfold is_lower_hex, ascii. lia. Qed.

Lemma escape_char_ascii (c : N) : Forall ascii (escape_char c).
Proof.
  assert (Hx : forall n, Forall ascii (hex4 n)).
  { intros n. eapply Forall_impl; [apply hex4_lower|]. apply lower_hex_ascii. }
  destruct (escape_char_form c) as [x E|P Q R|E O B|A];
    repeat first [apply Hx | apply Forall_app; split | apply Forall_cons_2
                 | apply Forall_nil_2]; unfold ascii; try lia.
  unfold short_escape in E.
  repeat match type of E with
         | (if ?b then _ else _) = _ => destruct b
         end; try discriminate; injection E as <-; lia.
Qed.

Lemma encode_basestring_ascii_ascii (s : pystr) :
  Forall ascii (encode_basestring_ascii s).
Proof.
  unfold encode_basestring_ascii.
  apply Forall_app; split; [apply Forall_cons_2; [unfold ascii; lia|constructor]|].
  apply Forall_app; split; [|apply Forall_cons_2; [unfold ascii; lia|constructor]].
  induction s as [|c s IH]; cbn [map concat]; [constructor|].
  apply Forall_app; split; [apply escape_char_ascii|exact IH].
Qed.

Lemma int_repr_ascii (z : Z) : Forall ascii (int_repr z).
Proof.
  eapply Forall_impl; [apply int_repr_chars|].
  intros c. unfold int_char, ascii. lia.
Qed.

Lemma join_ascii (ps : list pystr) :
  Forall (Forall ascii) ps -> Forall ascii (join [44] ps).
Proof.
  induction 1 as [|p ps Hp Hps IH]; [constructor|].
  destruct ps as [|q qs]; [exact Hp|].
  change (Forall ascii (p ++ [44] ++ join [44] (q :: qs))).
  apply Forall_app; split; [exact Hp|].
  apply Forall_cons_2; [unfold ascii; lia|exact IH].
Qed.

Lemma utf8_ascii (s : pystr) : Forall ascii s -> encode_utf8 s = s.
Proof.
  unfold encode_utf8. induction 1 as [|c s Hc Hs IH]; [reflexivity|].
  cbn [map concat]. rewrite IH. unfold utf8_char.
  destruct (N.ltb_spec c 128) as [_|Hge]; [reflexivity|unfold ascii in Hc; lia].
Qed.

Local Close Scope N_scope.

(** ** Mining *)

Section Facts.

Context {float : Type} (floatstr : float -> pystr).
Implicit Types (b : Block float) (h : heap float) (self : CentralBlockchain).
Implicit Types (l : loc) (p : pystr).

Lemma compute_hash_length b : length (compute_hash floatstr b) = 64.
Proof. apply hexdigest_length. Qed.

Lemma compute_hash_lower b : Forall is_lower_hex (compute_hash floatstr b).
Proof. apply hexdigest_lower. Qed.

Lemma set_nonce_same b : set_nonce b (nonce b) = b.
Proof. now destruct b. Qed.

Lemma set_nonce_twice b m n : set_nonce (set_nonce b m) n = set_nonce b n.
Proof. reflexivity. Qed.

(** The loop on the store is the search on nonces: the block given is
    overwritten with the sealed block of the nonce found. *)
Lemma mineBlock_search fuel self h l b :
  h !! l = Some b ->
  mineBlock floatstr fuel self h l =
  match search floatstr fuel (prefix self) b with
  | Some n => Ret (<[l := seal floatstr (set_nonce b n)]> h, l)
  | None => OutOfFuel
  end.
Proof.
  revert h b. induction fuel as [|fuel IH]; intros h b Hl; [reflexivity|].
  cbn [mineBlock search]. rewrite Hl. unfold nonce_ok. rewrite set_nonce_same.
  destruct (startswith _ _) eqn:Hs.
  - reflexivity.
  - assert (Hlt : l < length h) by (eapply lookup_lt_Some; eassumption).
    rewrite (IH _ (set_nonce b (nonce b + 1))) by now apply list_lookup_insert_eq.
    destruct (search _ _ _ _) as [n|]; [|reflexivity].
    now rewrite list_insert_insert_eq.
Qed.

(** What [search] finds is the first nonce, counting up from the
    block's own, whose digest has the prefix. *)
Lemma search_Some fuel p b n :
  search floatstr fuel p b = Some n <->
  exists k, k < fuel /\ n = (nonce b + Z.of_nat k)%Z /\
    nonce_ok floatstr p b n = true /\
    forall j, j < k -> nonce_ok floatstr p b (nonce b + Z.of_nat j) = false.
Proof.
  revert b. induction fuel as [|fuel IH]; intros b; cbn [search].
  { split; [discriminate|]. intros (k & Hk & _). lia. }
  destruct (nonce_ok floatstr p b (nonce b)) eqn:Hok.
  - split.
    + intros [= <-]. exists 0. repeat split; try lia; try exact Hok.
    + intros (k & _ & -> & _ & Hmin). destruct k as [|k]; [f_equal; lia|].
      specialize (Hmin 0 ltac:(lia)).
      replace (nonce b + Z.of_nat 0)%Z with (nonce b) in Hmin by lia. congruence.
  - rewrite IH. cbn [nonce set_nonce]. split.
    + intros (k & Hk & -> & Hn & Hmin). exists (S k). repeat split; try lia.
      * exact Hn.
      * intros [|j] Hj.
        -- replace (nonce b + Z.of_nat 0)%Z with (nonce b) by lia. exact Hok.
        -- specialize (Hmin j ltac:(lia)).
           replace (nonce b + Z.of_nat (S j))%Z with (nonce b + 1 + Z.of_nat j)%Z by lia.
           exact Hmin.
    + intros (k & Hk & -> & Hn & Hmin). destruct k as [|k].
      * replace (nonce b + Z.of_nat 0)%Z with (nonce b) in Hn by lia. congruence.
      * exists k. repeat split; try lia.
        -- exact Hn.
        -- intros j Hj. specialize (Hmin (S j) ltac:(lia)).
           replace (nonce b + 1 + Z.of_nat j)%Z with (nonce b + Z.of_nat (S j))%Z by lia.
           exact Hmin.
Qed.

Lemma first_true (P : nat -> bool) (k : nat) :
  P k = true ->
  exists k0, k0 <= k /\ P k0 = true /\ forall j, j < k0 -> P j = false.
Proof.
  revert P. induction k as [|k IH]; intros P Hk.
  - exists 0. repeat split; [lia|exact Hk|]. intros j Hj. lia.
  - destruct (P 0) eqn:H0.
    + exists 0. repeat split; [lia|exact H0|]. intros j Hj. lia.
    + destruct (IH (fun j => P (S j)) Hk) as (k0 & Hle & Hok & Hmin).
      exists (S k0). repeat split; [lia|exact Hok|].
      intros [|j] Hj; [exact H0|]. apply Hmin. lia.
Qed.

(** With enough iterations the search stops at the least good nonce from
    the block's own on, whenever there is a good nonce at all. *)
Lemma search_least p b n :
  (nonce b <= n)%Z -> nonce_ok floatstr p b n = true ->
  exists k, (nonce b + Z.of_nat k <= n)%Z /\
    nonce_ok floatstr p b (nonce b + Z.of_nat k) = true /\
    (forall j, j < k -> nonce_ok floatstr p b (nonce b + Z.of_nat j) = false) /\
    forall fuel, k < fuel -> search floatstr fuel p b = Some (nonce b + Z.of_nat k)%Z.
Proof.
  intros Hle Hok.
  destruct (first_true (fun j => nonce_ok floatstr p b (nonce b + Z.of_nat j))
              (Z.to_nat (n - nonce b))) as (k & Hk & Hgood & Hmin).
  { cbv beta. now replace (nonce b + Z.of_nat (Z.to_nat (n - nonce b)))%Z with n by lia. }
  exists k. repeat split; [lia|exact Hgood|exact Hmin|].
  intros fuel Hfuel. apply search_Some. exists k. auto.
Qed.

(** No digest starts with a prefix longer than a digest. *)
Lemma search_long_prefix fuel p b :
  64 < length p -> search floatstr fuel p b = None.
Proof.
  intros Hp. revert b. induction fuel as [|fuel IH]; intros b; [reflexivity|].
  cbn [search]. unfold nonce_ok at 1.
  destruct (startswith _ p) eqn:Hs; [|apply IH].
  apply startswith_length in Hs. rewrite compute_hash_length in Hs. lia.
Qed.

Lemma mineBlock_Ret_lookup fuel self h l r :
  mineBlock floatstr fuel self h l = Ret r -> exists b, h !! l = Some b.
Proof.
  destruct fuel as [|fuel]; [discriminate|]. cbn [mineBlock].
  destruct (h !! l) as [b|]; [eauto|discriminate].
Qed.

(** C1 (amended): when some nonce from the candidate's own on gives a
    digest with at least [difficulty] leading zeros, [mineBlock] returns
    with enough iterations; the block it leaves in place of the candidate
    is sealed (its hash is its recomputed digest), that hash has at least
    [difficulty] leading ['0'] characters, and its nonce is the least
    integer from the starting nonce on whose digest has that many. When
    no nonce from the starting one on gives such a digest, [mineBlock]
    does not return, however many iterations it is given; this is so at
    every difficulty above 64, a digest having 64 characters. *)
Theorem mineBlock_least_nonce self h l b :
  prefix self = str_mul (py "0") (difficulty self) ->
  h !! l = Some b ->
  (forall n,
     (nonce b <= n)%Z ->
     Z.to_nat (difficulty self)
       <= leading_zeros (compute_hash floatstr (set_nonce b n)) ->
     exists fuel b',
       (forall fuel', fuel <= fuel' ->
          mineBlock floatstr fuel' self h l = Ret (<[l := b']> h, l)) /\
       b' = seal floatstr (set_nonce b (nonce b')) /\
       hash b' = compute_hash floatstr b' /\
       Z.to_nat (difficulty self) <= leading_zeros (hash b') /\
       (nonce b <= nonce b' <= n)%Z /\
       forall m, (nonce b <= m < nonce b')%Z ->
         leading_zeros (compute_hash floatstr (set_nonce b m))
           < Z.to_nat (difficulty self)) /\
  ((forall n, (nonce b <= n)%Z ->
      leading_zeros (compute_hash floatstr (set_nonce b n))
        < Z.to_nat (difficulty self)) ->
   forall fuel, mineBlock floatstr fuel self h l = OutOfFuel) /\
  ((64 < difficulty self)%Z ->
   forall fuel, mineBlock floatstr fuel self h l = OutOfFuel).
Proof.
  intros Hp Hl. split; [|split].
  - intros n Hn Hz.
    assert (Hok : nonce_ok floatstr (prefix self) b n = true).
    { unfold nonce_ok. rewrite Hp. now apply startswith_zeros. }
    destruct (search_least _ _ _ Hn Hok) as (k & Hkn & Hgood & Hmin & Hrun).
    exists (S k), (seal floatstr (set_nonce b (nonce b + Z.of_nat k))).
    split; [|split; [reflexivity|split; [reflexivity|split; [|split]]]].
    + intros fuel' Hf. rewrite (mineBlock_search _ _ _ _ _ Hl), Hrun by lia. reflexivity.
    + unfold nonce_ok in Hgood. rewrite Hp in Hgood.
      now apply startswith_zeros in Hgood.
    + cbn [nonce seal set_hash set_nonce]. lia.
    + cbn [nonce seal set_hash set_nonce]. intros m Hm.
      specialize (Hmin (Z.to_nat (m - nonce b)) ltac:(lia)).
      replace (nonce b + Z.of_nat (Z.to_nat (m - nonce b)))%Z with m in Hmin by lia.
      unfold nonce_ok in Hmin. rewrite Hp in Hmin.
      destruct (Nat.lt_ge_cases
                  (leading_zeros (compute_hash floatstr (set_nonce b m)))
                  (Z.to_nat (difficulty self))) as [Hlt|Hge]; [exact Hlt|].
      apply startswith_zeros in Hge. congruence.
  - intros Hnone fuel. rewrite (mineBlock_search _ _ _ _ _ Hl).
    destruct (search floatstr fuel (prefix self) b) as [n|] eqn:Hs; [exfalso|reflexivity].
    apply search_Some in Hs as (k & _ & -> & Hok & _).
    unfold nonce_ok in Hok. rewrite Hp in Hok. apply startswith_zeros in Hok.
    specialize (Hnone (nonce b + Z.of_nat k)%Z ltac:(lia)). lia.
  - intros Hd fuel. rewrite (mineBlock_search _ _ _ _ _ Hl).
    rewrite search_long_prefix; [reflexivity|].
    rewrite Hp. change (py "0") with [48%N]. rewrite str_mul_length. lia.
Qed.

(** C8: at difficulty 0 the first iteration of [mineBlock] returns; the
    block then stored in place of the candidate has the candidate's
    starting nonce, the digest of that starting state as its hash, and
    the candidate's other fields. *)
Theorem mineBlock_difficulty_zero fuel self h l b :
  difficulty self = 0%Z ->
  prefix self = str_mul (py "0") (difficulty self) ->
  h !! l = Some b ->
  exists h' b',
    mineBlock floatstr (S fuel) self h l = Ret (h', l) /\
    h' !! l = Some b' /\
    nonce b' = nonce b /\
    hash b' = compute_hash floatstr b /\
    hash b' = compute_hash floatstr b' /\
    index b' = index b /\ timestamp b' = timestamp b /\
    data b' = data b /\ previous_hash b' = previous_hash b /\
    forall l2, l2 <> l -> h' !! l2 = h !! l2.
Proof.
  intros Hd Hp Hl.
  exists (<[l := set_hash b (compute_hash floatstr b)]> h),
         (set_hash b (compute_hash floatstr b)).
  split; [|split].
  - cbn [mineBlock]. rewrite Hl, Hp, Hd. cbn [str_mul Z.to_nat replicate concat].
    rewrite startswith_nil. reflexivity.
  - apply list_lookup_insert_eq. eapply lookup_lt_Some. exact Hl.
  - cbn [nonce hash index timestamp data previous_hash set_hash].
    split; [reflexivity|]. split; [reflexivity|]. split.
    + destruct b. reflexivity.
    + repeat split. intros l2 Hne. now apply list_lookup_insert_ne.
Qed.

(** C9: [mineBlock] returns the reference it was given; the store has
    the same objects, every other object is unchanged, and the block
    mined keeps its index, timestamp, data and previous_hash: only its
    nonce (never decreased) and its hash (now its digest) are written. *)
Theorem mineBlock_frame fuel self h l h' l' :
  mineBlock floatstr fuel self h l = Ret (h', l') ->
  l' = l /\ length h' = length h /\
  (forall l2, l2 <> l -> h' !! l2 = h !! l2) /\
  exists b b', h !! l = Some b /\ h' !! l = Some b' /\
    index b' = index b /\ timestamp b' = timestamp b /\ data b' = data b /\
    previous_hash b' = previous_hash b /\
    (nonce b <= nonce b')%Z /\ hash b' = compute_hash floatstr b'.
Proof.
  intros Hrun. destruct (mineBlock_Ret_lookup _ _ _ _ _ Hrun) as [b Hl].
  rewrite (mineBlock_search _ _ _ _ _ Hl) in Hrun.
  destruct (search _ _ _ _) as [n|] eqn:Hs; [|discriminate].
  injection Hrun as <- <-.
  apply search_Some in Hs as (k & _ & -> & _).
  split; [reflexivity|]. split; [apply length_insert|].
  split; [intros l2 Hne; now apply list_lookup_insert_ne|].
  exists b, (seal floatstr (set_nonce b (nonce b + Z.of_nat k))).
  split; [exact Hl|]. split.
  { apply list_lookup_insert_eq. eapply lookup_lt_Some; eassumption. }
  cbn [index timestamp data previous_hash nonce hash seal set_hash set_nonce].
  repeat split; lia.
Qed.

(** C5: the digest depends on index, timestamp, data, previous_hash and
    nonce only (two blocks that agree on these have the same digest,
    whatever their hash fields), and it is 64 lowercase hex characters. *)
Theorem compute_hash_deterministic b1 b2 :
  index b1 = index b2 -> timestamp b1 = timestamp b2 -> data b1 = data b2 ->
  previous_hash b1 = previous_hash b2 -> nonce b1 = nonce b2 ->
  compute_hash floatstr b1 = compute_hash floatstr b2 /\
  length (compute_hash floatstr b1) = 64 /\
  Forall is_lower_hex (compute_hash floatstr b1).
Proof.
  intros Hi Ht Hd Hp Hn. split; [|split].
  - unfold compute_hash, block_string. rewrite Hi, Ht, Hd, Hp, Hn. reflexivity.
  - apply compute_hash_length.
  - apply compute_hash_lower.
Qed.

(** C7: [getBlock] returns the reference at position [i] of the chain
    when [0 <= i < len(chain)] and [None] for every other integer, the
    negative ones included; it has no other outcome. *)
Theorem getBlock_spec self (i : Z) :
  ((0 <= i < Z.of_nat (length (chain self)))%Z ->
     exists l, getBlock self i = Some l /\ chain self !! Z.to_nat i = Some l) /\
  (~ (0 <= i < Z.of_nat (length (chain self)))%Z -> getBlock self i = None).
Proof.
  unfold getBlock. split; intros H.
  - destruct (lookup_lt_is_Some_2 (chain self) (Z.to_nat i)) as [l Hl]; [lia|].
    exists l. split; [|exact Hl].
    replace (0 <=? i)%Z with true by (symmetry; apply Z.leb_le; lia).
    replace (i <? Z.of_nat (length (chain self)))%Z with true
      by (symmetry; apply Z.ltb_lt; lia).
    exact Hl.
  - destruct (Z.leb_spec 0 i), (Z.ltb_spec i (Z.of_nat (length (chain self))));
      try reflexivity. lia.
Qed.

(** ** Validation *)

Lemma check_links_spec p prev rest :
  check_links floatstr p prev rest = true <->
  forall i a c, (prev :: rest) !! i = Some a -> (prev :: rest) !! S i = Some c ->
    link_ok floatstr p a c.
Proof.
  revert prev. induction rest as [|curr rest IH]; intros prev; cbn [check_links].
  - split; [|reflexivity]. intros _ i a c _ Hc.
    destruct i; discriminate.
  - destruct (bool_decide_reflect (previous_hash curr = hash prev)) as [H1|H1]; cbn [negb].
    2:{ split; [discriminate|]. intros H. destruct (H 0 prev curr eq_refl eq_refl). tauto. }
    destruct (bool_decide_reflect (compute_hash floatstr curr = hash curr)) as [H2|H2];
      cbn [negb].
    2:{ split; [discriminate|]. intros H.
        destruct (H 0 prev curr eq_refl eq_refl) as (_ & ? & _). congruence. }
    destruct (startswith (hash curr) p) eqn:H3; cbn [negb].
    2:{ split; [discriminate|]. intros H.
        destruct (H 0 prev curr eq_refl eq_refl) as (_ & _ & ?). congruence. }
    rewrite IH. split.
    + intros H [|i] a c Ha Hc.
      * injection Ha as <-. injection Hc as <-. repeat split; congruence.
      * exact (H i a c Ha Hc).
    + intros H i a c Ha Hc. exact (H (S i) a c Ha Hc).
Qed.

Lemma is_valid_blocks_spec p bs :
  is_valid_blocks floatstr p bs = true <->
  (exists g, bs !! 0 = Some g /\ hash g = compute_hash floatstr g) /\
  forall i a c, bs !! i = Some a -> bs !! S i = Some c -> link_ok floatstr p a c.
Proof.
  destruct bs as [|g rest]; cbn [is_valid_blocks].
  - split; [discriminate|]. intros [(g & Hg & _) _]. discriminate.
  - destruct (bool_decide_reflect (hash g = compute_hash floatstr g)) as [H|H]; cbn [negb].
    + rewrite check_links_spec. split; [intros Hl; split; eauto|intros [_ Hl]; exact Hl].
    + split; [discriminate|]. intros [(g' & [= <-] & Hg) _]. contradiction.
Qed.

(** C2: [is_valid] is false on an empty chain; on any other chain it is
    true exactly when the first block's hash is its recomputed digest and
    every later block links to its predecessor, has its recomputed digest
    as hash, and has a hash with at least as many leading ['0']
    characters as the ledger's difficulty (the prefix being the one
    [__init__] made of it). The first block's hash is not compared
    with the prefix: a one-block chain is valid as soon as that
    block's hash is its digest. *)
Theorem is_valid_spec self h bs :
  prefix self = str_mul (py "0") (difficulty self) ->
  deref h (chain self) = Some bs ->
  (bs = [] -> is_valid floatstr self h = Some false) /\
  (exists r, is_valid floatstr self h = Some r /\
     (r = true <->
      (exists g, bs !! 0 = Some g /\ hash g = compute_hash floatstr g) /\
      forall i prev curr, bs !! i = Some prev -> bs !! S i = Some curr ->
        previous_hash curr = hash prev /\
        hash curr = compute_hash floatstr curr /\
        (difficulty self <= Z.of_nat (leading_zeros (hash curr)))%Z)) /\
  (forall g, bs = [g] ->
     is_valid floatstr self h = Some (bool_decide (hash g = compute_hash floatstr g))).
Proof.
  intros Hp Hd. unfold is_valid. rewrite Hd. cbn [fmap option_fmap option_map].
  split; [|split].
  - intros ->. reflexivity.
  - eexists. split; [reflexivity|]. rewrite is_valid_blocks_spec.
    assert (Hz : forall s, startswith s (prefix self) = true <->
                           (difficulty self <= Z.of_nat (leading_zeros s))%Z).
    { intros s. rewrite Hp, startswith_zeros. lia. }
    split; intros [Hg Hlinks]; (split; [exact Hg|]); intros i prev curr Ha Hc;
      destruct (Hlinks i prev curr Ha Hc) as (H1 & H2 & H3);
      (split; [exact H1|split; [exact H2|]]); now apply Hz.
  - intros g ->. cbn [is_valid_blocks check_links].
    now destruct (bool_decide _).
Qed.

(** ** The store and the chain *)

Lemma deref_lookup h c bs i l :
  deref h c = Some bs -> c !! i = Some l -> exists b, bs !! i = Some b /\ h !! l = Some b.
Proof.
  intros Hd Hl. apply mapM_Some_1 in Hd.
  destruct (Forall2_lookup_l _ _ _ _ _ Hd Hl) as (b & Hb & Hlb). eauto.
Qed.

Lemma deref_length h c bs : deref h c = Some bs -> length bs = length c.
Proof. intros Hd. symmetry. eapply length_mapM. exact Hd. Qed.

(** Objects the chain does not name, or names and that did not change,
    give the same blocks. *)
Lemma deref_ext h h' c :
  (forall l, l ∈ c -> h' !! l = h !! l) -> deref h' c = deref h c.
Proof.
  intros H. unfold deref. induction c as [|l c IH]; [reflexivity|].
  cbn [mapM]. rewrite H by apply list_elem_of_here.
  rewrite IH; [reflexivity|]. intros l2 Hl2. apply H. now apply list_elem_of_further.
Qed.

Lemma deref_snoc h c l bs b :
  deref h c = Some bs -> h !! l = Some b -> deref h (c ++ [l]) = Some (bs ++ [b]).
Proof.
  intros Hd Hl. apply mapM_Some_2. apply Forall2_app.
  - now apply mapM_Some_1.
  - repeat constructor. exact Hl.
Qed.

(** Writing the object at position [i] of a chain without repeats
    changes position [i] of its blocks and nothing else. *)
Lemma deref_insert h c bs i l b' :
  NoDup c -> deref h c = Some bs -> c !! i = Some l ->
  deref (<[l := b']> h) c = Some (<[i := b']> bs).
Proof.
  intros Hnd Hd Hl. apply mapM_Some_2. apply mapM_Some_1 in Hd.
  apply Forall2_same_length_lookup. split.
  { rewrite length_insert. eapply Forall2_length. exact Hd. }
  intros j l2 b2 Hl2 Hb2.
  destruct (decide (j = i)) as [->|Hne].
  - assert (l2 = l) as -> by congruence.
    destruct (Forall2_lookup_l _ _ _ _ _ Hd Hl) as (b & Hb & Hlb).
    rewrite list_lookup_insert_eq in Hb2 by (eapply lookup_lt_Some; eassumption).
    injection Hb2 as <-.
    apply list_lookup_insert_eq. eapply lookup_lt_Some; eassumption.
  - rewrite list_lookup_insert_ne in Hb2 by congruence.
    rewrite list_lookup_insert_ne.
    + exact (Forall2_lookup_lr _ _ _ _ _ _ Hd Hl2 Hb2).
    + intros <-. apply Hne. symmetry. eapply NoDup_lookup; eassumption.
Qed.

(** What a call of [setBlock] that returns has done. *)
Lemma setBlock_Ret fuel now d self h self' h' l :
  setBlock floatstr fuel now d self h = Ret (self', h', l) ->
  exists tl tip b',
    last (chain self) = Some tl /\ h !! tl = Some tip /\
    l = length h /\ self' = with_chain self (chain self ++ [l]) /\
    length h' = S (length h) /\
    (forall l2, l2 < length h -> h' !! l2 = h !! l2) /\
    h' !! l = Some b' /\
    index b' = (index tip + 1)%Z /\ timestamp b' = now /\ data b' = d /\
    previous_hash b' = hash tip /\ (0 <= nonce b')%Z /\
    hash b' = compute_hash floatstr b' /\
    startswith (hash b') (prefix self) = true.
Proof.
  unfold setBlock. intros Hrun.
  destruct (last (chain self)) as [tl|] eqn:Hlast; cbn [mbind option_bind] in Hrun;
    [|discriminate].
  destruct (h !! tl) as [tip|] eqn:Htip; [|discriminate].
  set (nb := mkBlock (index tip + 1) now d (hash tip) 0 []) in Hrun.
  assert (Hnb : (h ++ [nb]) !! length h = Some nb) by now apply list_lookup_middle.
  rewrite (mineBlock_search _ _ _ _ _ Hnb) in Hrun.
  destruct (search _ _ _ _) as [n|] eqn:Hs; [|discriminate].
  injection Hrun as <- <- <-.
  apply search_Some in Hs as (k & _ & -> & Hok & _).
  exists tl, tip, (seal floatstr (set_nonce nb (nonce nb + Z.of_nat k))).
  split; [reflexivity|]. split; [exact Htip|]. split; [reflexivity|].
  split; [reflexivity|]. split.
  { rewrite length_insert, length_app. cbn [length]. lia. }
  split.
  { intros l2 Hl2. rewrite list_lookup_insert_ne by lia. now apply lookup_app_l. }
  split.
  { apply list_lookup_insert_eq. rewrite length_app. cbn [length]. lia. }
  cbn [index timestamp data previous_hash nonce hash seal set_hash set_nonce nb].
  repeat split; try lia. exact Hok.
Qed.

(** The invariant of a ledger built by [__init__] on no loaded chain and
    grown by [setBlock]. *)
Lemma appends_fresh N d0 now0 h0 self h :
  appends floatstr N (init floatstr d0 [] now0 h0) (self, h) ->
  ledger_ok self h /\
  exists bs, deref h (chain self) = Some bs /\ length bs = S N /\
    is_valid_blocks floatstr (prefix self) bs = true /\
    forall i prev curr, bs !! i = Some prev -> bs !! S i = Some curr ->
      index curr = (index prev + 1)%Z.
Proof.
  remember (init floatstr d0 [] now0 h0) as s0 eqn:Hs0.
  remember (self, h) as s eqn:Hs.
  intros Happ. revert self h Hs.
  induction Happ as [s|n s self1 h1 fuel now d self' h' l Happ IH Hset];
    intros self h Hs; subst.
  - unfold init in Hs. cbn [length seq chain with_chain app] in Hs.
    injection Hs as <- <-. rewrite app_nil_r.
    cbn [chain with_chain difficulty prefix]. split.
    + split; [|split; [|reflexivity]].
      * repeat constructor. rewrite length_app. cbn [length]. lia.
      * apply NoDup_singleton.
    + exists [create_genesis_block floatstr now0]. split; [|split; [reflexivity|split]].
      * unfold deref. cbn [mapM]. rewrite list_lookup_middle by reflexivity. reflexivity.
      * cbn [is_valid_blocks check_links create_genesis_block hash set_hash].
        rewrite bool_decide_eq_true_2; reflexivity.
      * intros [|i] prev curr _ Hc; discriminate.
  - injection Hs as <- <-.
    destruct (IH eq_refl _ _ eq_refl) as ((Hall & Hnd & Hp) & bs & Hd & Hlen & Hv & Hidx).
    destruct (setBlock_Ret _ _ _ _ _ _ _ _ Hset)
      as (tl & tip & b' & Hlast & Htip & -> & -> & Hlen' & Hold & Hnew
          & Hi & _ & _ & Hph & _ & Hh & Hsw).
    cbn [chain with_chain difficulty prefix].
    assert (Hd' : deref h' (chain self1) = Some bs).
    { rewrite <- Hd. apply deref_ext. intros l Hl. apply Hold.
      rewrite Forall_forall in Hall. exact (Hall l Hl). }
    assert (Htipbs : bs !! n = Some tip).
    { rewrite last_lookup in Hlast.
      destruct (deref_lookup _ _ _ _ _ Hd Hlast) as (b & Hb & Hb').
      rewrite <- (deref_length _ _ _ Hd), Hlen in Hb. cbn [pred] in Hb. congruence. }
    split.
    + split; [|split; [|exact Hp]].
      * apply Forall_app. split.
        -- eapply Forall_impl; [exact Hall|]. cbv beta. intros; lia.
        -- repeat constructor. lia.
      * apply NoDup_app. split; [exact Hnd|]. split; [|apply NoDup_singleton].
        intros l Hl Hl'. apply list_elem_of_singleton in Hl'. subst l.
        rewrite Forall_forall in Hall. specialize (Hall _ Hl). lia.
    + exists (bs ++ [b']). split; [now apply deref_snoc|].
      split; [rewrite length_app; cbn [length]; lia|].
      assert (Hcase : forall i prev curr,
                 (bs ++ [b']) !! i = Some prev -> (bs ++ [b']) !! S i = Some curr ->
                 (bs !! i = Some prev /\ bs !! S i = Some curr) \/
                 (prev = tip /\ curr = b')).
      { intros i prev curr Ha Hc.
        destruct (decide (S i < length bs)) as [Hlt|Hge].
        - left. rewrite lookup_app_l in Ha by lia. rewrite lookup_app_l in Hc by lia. tauto.
        - right. assert (S i = length bs) as Hi'.
          { apply lookup_lt_Some in Hc. rewrite length_app in Hc. cbn [length] in Hc. lia. }
          rewrite lookup_app_l in Ha by lia.
          rewrite Hi', list_lookup_middle in Hc by reflexivity.
          assert (i = n) by lia. subst i. split; congruence. }
      split.
      * apply is_valid_blocks_spec. apply is_valid_blocks_spec in Hv as [(g & Hg0 & Hg) Hlinks].
        split.
        -- exists g. split; [|exact Hg]. rewrite lookup_app_l; [exact Hg0|].
           apply lookup_lt_Some in Hg0. exact Hg0.
        -- intros i prev curr Ha Hc.
           destruct (Hcase _ _ _ Ha Hc) as [[Ha' Hc']|[-> ->]].
           ++ exact (Hlinks _ _ _ Ha' Hc').
           ++ repeat split; assumption.
      * intros i prev curr Ha Hc.
        destruct (Hcase _ _ _ Ha Hc) as [[Ha' Hc']|[-> ->]].
        -- exact (Hidx _ _ _ Ha' Hc').
        -- exact Hi.
Qed.

Lemma compute_hash_fields i t d ph n hs hs' :
  compute_hash floatstr (mkBlock i t d ph n hs) = compute_hash floatstr (mkBlock i t d ph n hs').
Proof. reflexivity. Qed.

(** What a change of one field does to the three values [is_valid]
    reads of a block. *)
Lemma changed_reads f b b' :
  changed f b b' ->
  (f = FHash -> hash b' <> hash b /\ compute_hash floatstr b' = compute_hash floatstr b) /\
  (f = FPreviousHash -> previous_hash b' <> previous_hash b) /\
  (f <> FHash -> hash b' = hash b) /\
  (f <> FPreviousHash -> previous_hash b' = previous_hash b).
Proof.
  destruct b as [i t d ph n hs].
  destruct f; cbn [changed index timestamp data previous_hash nonce hash];
    intros [Hne ->]; cbn [index timestamp data previous_hash nonce hash];
    (split; [|split; [|split]]); intros Hf; try discriminate; try reflexivity;
    try contradiction; try exact Hne.
  split; [exact Hne|]. apply compute_hash_fields.
Qed.

(** Blocks with the same hash, previous_hash and digest pass the same
    checks. *)
Lemma check_links_same p prev prev' rest rest' :
  hash prev' = hash prev ->
  Forall2 (fun x y => hash y = hash x /\ previous_hash y = previous_hash x /\
                      compute_hash floatstr y = compute_hash floatstr x) rest rest' ->
  check_links floatstr p prev' rest' = check_links floatstr p prev rest.
Proof.
  intros Hp HF. revert prev prev' Hp.
  induction HF as [|x y rest rest' (Hh & Hph & Hc) HF IH]; intros prev prev' Hp;
    [reflexivity|].
  cbn [check_links]. rewrite Hh, Hph, Hc, Hp. rewrite (IH x y Hh). reflexivity.
Qed.

Lemma is_valid_blocks_same p bs bs' :
  Forall2 (fun x y => hash y = hash x /\ previous_hash y = previous_hash x /\
                      compute_hash floatstr y = compute_hash floatstr x) bs bs' ->
  is_valid_blocks floatstr p bs' = is_valid_blocks floatstr p bs.
Proof.
  intros HF. destruct HF as [|x y rest rest' (Hh & Hph & Hc) HF]; [reflexivity|].
  cbn [is_valid_blocks]. rewrite Hh, Hc.
  rewrite (check_links_same p x y rest rest' Hh HF). reflexivity.
Qed.

(** [setBlock] is the mining of the candidate it builds. *)
Lemma setBlock_mines fuel now d self h self' h' l :
  setBlock floatstr fuel now d self h = Ret (self', h', l) ->
  exists tl tip,
    last (chain self) = Some tl /\ h !! tl = Some tip /\
    mineBlock floatstr fuel self
      (h ++ [mkBlock (index tip + 1) now d (hash tip) 0 []]) (length h) = Ret (h', l) /\
    self' = with_chain self (chain self ++ [l]).
Proof.
  unfold setBlock. intros Hrun.
  destruct (last (chain self)) as [tl|] eqn:Hlast; cbn [mbind option_bind] in Hrun;
    [|discriminate].
  destruct (h !! tl) as [tip|] eqn:Htip; [|discriminate].
  exists tl, tip. split; [reflexivity|]. split; [exact Htip|].
  destruct (mineBlock _ _ _ _ _) as [[h2 l2]| |]; try discriminate.
  injection Hrun as <- <- <-. split; reflexivity.
Qed.

(** C4: [setBlock] makes the candidate with index [tip.index + 1], the
    clock reading, the data given, previous_hash [tip.hash], nonce 0 and
    an empty hash, and mines it under the ledger's prefix. When some
    nonce from 0 on gives the candidate a digest with [difficulty]
    leading zeros, the call returns with enough iterations: the block
    mined is a new object put at the tail of the chain, and the
    reference to it is returned. A call that returns has done that
    and nothing else. After [N] such calls on a new ledger every block
    from position 1 on has the hash of its predecessor as previous_hash
    and its index plus one as index. *)
Theorem setBlock_linkage :
  (forall now d self h tl tip n,
     prefix self = str_mul (py "0") (difficulty self) ->
     last (chain self) = Some tl -> h !! tl = Some tip ->
     (0 <= n)%Z ->
     Z.to_nat (difficulty self)
       <= leading_zeros
            (compute_hash floatstr (mkBlock (index tip + 1) now d (hash tip) n [])) ->
     exists fuel mined,
       (forall fuel', fuel <= fuel' ->
          setBlock floatstr fuel' now d self h =
            Ret (with_chain self (chain self ++ [length h]),
                 h ++ [mined], length h)) /\
       index mined = (index tip + 1)%Z /\ timestamp mined = now /\
       data mined = d /\ previous_hash mined = hash tip /\
       (0 <= nonce mined <= n)%Z /\
       hash mined = compute_hash floatstr mined /\
       Z.to_nat (difficulty self) <= leading_zeros (hash mined)) /\
  (forall fuel now d self h self' h' l,
     setBlock floatstr fuel now d self h = Ret (self', h', l) ->
     exists tl tip mined,
       last (chain self) = Some tl /\ h !! tl = Some tip /\
       mineBlock floatstr fuel self
         (h ++ [mkBlock (index tip + 1) now d (hash tip) 0 []]) (length h)
         = Ret (h', l) /\
       chain self' = chain self ++ [l] /\
       difficulty self' = difficulty self /\ prefix self' = prefix self /\
       h' !! l = Some mined /\
       index mined = (index tip + 1)%Z /\ timestamp mined = now /\
       data mined = d /\ previous_hash mined = hash tip /\
       hash mined = compute_hash floatstr mined /\
       startswith (hash mined) (prefix self) = true) /\
  (forall N d0 now0 h0 self h,
     appends floatstr N (init floatstr d0 [] now0 h0) (self, h) ->
     exists bs, deref h (chain self) = Some bs /\ length bs = S N /\
       forall i prev curr, bs !! i = Some prev -> bs !! S i = Some curr ->
         previous_hash curr = hash prev /\ index curr = (index prev + 1)%Z).
Proof.
  split; [|split].
  - intros now d self h tl tip n Hp Hlast Htip Hn Hz.
    set (cand := mkBlock (index tip + 1) now d (hash tip) 0 []).
    assert (Hok : nonce_ok floatstr (prefix self) cand n = true).
    { unfold nonce_ok. rewrite Hp. now apply startswith_zeros. }
    destruct (search_least (prefix self) cand n Hn Hok)
      as (k & Hkn & Hgood & _ & Hrun).
    exists (S k), (seal floatstr (set_nonce cand (nonce cand + Z.of_nat k))).
    split; [|split; [reflexivity|split; [reflexivity|split; [reflexivity|
            split; [reflexivity|split; [|split; [reflexivity|]]]]]]].
    + intros fuel' Hf. unfold setBlock. rewrite Hlast. cbn [mbind option_bind].
      rewrite Htip. cbv zeta. fold cand.
      rewrite (mineBlock_search fuel' self (h ++ [cand]) (length h) cand)
        by (apply list_lookup_middle; reflexivity).
      rewrite Hrun by lia.
      rewrite insert_app_r_alt by lia. rewrite Nat.sub_diag. reflexivity.
    + cbn [nonce seal set_hash set_nonce cand] in *. lia.
    + unfold nonce_ok in Hgood. rewrite Hp in Hgood.
      now apply startswith_zeros in Hgood.
  - intros fuel now d self h self' h' l Hset.
    destruct (setBlock_mines _ _ _ _ _ _ _ _ Hset) as (tl & tip & Hlast & Htip & Hmine & ->).
    destruct (setBlock_Ret _ _ _ _ _ _ _ _ Hset)
      as (tl' & tip' & b' & Hlast' & Htip' & _ & _ & _ & _ & Hnew
          & Hi & Ht & Hd & Hph & _ & Hh & Hsw).
    assert (tl' = tl) as -> by congruence.
    assert (tip' = tip) as -> by congruence.
    exists tl, tip, b'. cbn [chain with_chain difficulty prefix].
    repeat split; assumption || reflexivity.
  - intros N d0 now0 h0 self h Happ.
    destruct (appends_fresh _ _ _ _ _ _ Happ) as (_ & bs & Hd & Hlen & Hv & Hidx).
    exists bs. split; [exact Hd|]. split; [exact Hlen|].
    intros i prev curr Ha Hc. split.
    + apply is_valid_blocks_spec in Hv as [_ Hlinks].
      destruct (Hlinks _ _ _ Ha Hc) as [H _]. exact H.
    + exact (Hidx _ _ _ Ha Hc).
Qed.

(** What [is_valid] answers after one field of a block after the first
    was given another value, in terms of the digest [is_valid]
    recomputes. *)
Lemma appended_chain_checks N d0 now0 h0 self h :
  appends floatstr N (init floatstr d0 [] now0 h0) (self, h) ->
  is_valid floatstr self h = Some true /\
  forall i l b b' f,
    1 <= i -> chain self !! i = Some l -> h !! l = Some b -> changed f b b' ->
    (f = FHash \/ f = FPreviousHash \/
       compute_hash floatstr b' <> compute_hash floatstr b ->
     is_valid floatstr self (<[l := b']> h) = Some false) /\
    (f <> FHash -> f <> FPreviousHash ->
       compute_hash floatstr b' = compute_hash floatstr b ->
     is_valid floatstr self (<[l := b']> h) = Some true).
Proof.
  intros Happ.
  destruct (appends_fresh _ _ _ _ _ _ Happ) as ((Hall & Hnd & Hp) & bs & Hd & Hlen & Hv & _).
  split.
  { unfold is_valid. rewrite Hd. cbn [fmap option_fmap option_map]. now rewrite Hv. }
  intros i l b b' f Hi Hl Hb Hch.
  destruct (deref_lookup _ _ _ _ _ Hd Hl) as (b0 & Hbi & Hb0).
  assert (b0 = b) as -> by congruence.
  unfold is_valid. rewrite (deref_insert _ _ _ _ _ b' Hnd Hd Hl).
  cbn [fmap option_fmap option_map].
  destruct (changed_reads _ _ _ Hch) as (Hfh & Hfp & Hnh & Hnp).
  pose proof Hv as Hv0. apply is_valid_blocks_spec in Hv0 as [_ Hlinks].
  split.
  - intros Hcase. f_equal.
    destruct (is_valid_blocks floatstr (prefix self) (<[i:=b']> bs)) eqn:Hv'; [|reflexivity].
    exfalso. apply is_valid_blocks_spec in Hv' as [_ Hlinks'].
    destruct i as [|j]; [lia|].
    destruct (lookup_lt_is_Some_2 bs j) as [a Ha].
    { apply lookup_lt_Some in Hbi. lia. }
    destruct (Hlinks j a b Ha Hbi) as (Hph & Hh & _).
    destruct (Hlinks' j a b') as (Hph' & Hh' & _).
    { rewrite list_lookup_insert_ne by lia. exact Ha. }
    { apply list_lookup_insert_eq. eapply lookup_lt_Some; eassumption. }
    destruct (decide (f = FHash)) as [->|Hnf].
    { destruct (Hfh eq_refl) as [Hne Hc]. congruence. }
    destruct (decide (f = FPreviousHash)) as [->|Hnf'].
    { specialize (Hfp eq_refl). congruence. }
    destruct Hcase as [?|[?|Hc]]; try contradiction.
    specialize (Hnh Hnf). congruence.
  - intros Hnf Hnf' Hc. f_equal. rewrite <- Hv.
    apply is_valid_blocks_same.
    rewrite <- (list_insert_id bs i b Hbi) at 1.
    apply Forall2_insert.
    + apply Forall2_same_length_lookup. split; [reflexivity|].
      intros j x y Hx Hy. assert (x = y) as -> by congruence. auto.
    + auto.
Qed.

(** ** Construction and the public operations *)

Lemma deref_loaded h0 (loaded : list (Block float)) :
  deref (h0 ++ loaded) (seq (length h0) (length loaded)) = Some loaded.
Proof.
  apply mapM_Some_2. apply Forall2_same_length_lookup. split.
  { apply length_seq. }
  intros j l b Hl Hb. apply lookup_seq in Hl as [-> Hj].
  rewrite lookup_app_r by lia. rewrite <- Hb. f_equal. lia.
Qed.

Lemma mineBlock_writes fuel self h l h' l' :
  mineBlock floatstr fuel self h l = Ret (h', l') ->
  l' = l /\ length h' = length h /\ forall l2, l2 <> l -> h' !! l2 = h !! l2.
Proof.
  intros Hrun. destruct (mineBlock_Ret_lookup _ _ _ _ _ Hrun) as [b Hl].
  rewrite (mineBlock_search _ _ _ _ _ Hl) in Hrun.
  destruct (search _ _ _ _) as [n|]; [|discriminate].
  injection Hrun as <- <-. split; [reflexivity|]. split; [apply length_insert|].
  intros l2 Hne. now apply list_lookup_insert_ne.
Qed.

(** C10 (amended): after [__init__] the chain is not empty. When no
    chain was loaded it holds one block, the genesis block: index 0, a
    previous_hash of 64 zeros and its digest as hash. A loaded chain is
    kept as it was read. [getBlock], [blocksExplorer] and [is_valid]
    leave ledger and store as they were; [mineBlock] leaves the chain's
    references alone and writes no object but the one it is given;
    [setBlock] adds one reference at the tail, to a new object, and
    leaves the objects there were unchanged. *)
Theorem ledger_lifecycle :
  (forall d loaded now h0,
     let s := init floatstr d loaded now h0 in
     chain s.1 <> [] /\
     (loaded <> [] -> deref s.2 (chain s.1) = Some loaded) /\
     (loaded = [] ->
        deref s.2 (chain s.1) = Some [create_genesis_block floatstr now] /\
        genesis_first s.1 s.2)) /\
  (forall now,
     let g := create_genesis_block floatstr now in
     index g = 0%Z /\ previous_hash g = str_mul (py "0") 64 /\
     length (previous_hash g) = 64 /\
     hash g = compute_hash floatstr g /\ length (hash g) = 64) /\
  (forall fuel c self h self' h',
     after floatstr fuel c self h = Ret (self', h') ->
     match c with
     | CallSetBlock _ _ =>
         chain self' = chain self ++ [length h] /\
         length (chain self') = S (length (chain self)) /\
         length h' = S (length h) /\
         forall l, l < length h -> h' !! l = h !! l
     | CallMineBlock block =>
         self' = self /\ length h' = length h /\
         forall l, l <> block -> h' !! l = h !! l
     | CallGetBlock _ | CallBlocksExplorer | CallIsValid =>
         self' = self /\ h' = h
     end).
Proof.
  split; [|split].
  - intros d loaded now h0 s. subst s. unfold init.
    cbn [chain with_chain].
    destruct loaded as [|b loaded].
    + cbn [length seq app fst snd chain with_chain]. rewrite app_nil_r.
      split; [discriminate|]. split; [intros H; now contradiction H|]. intros _.
      assert (Hg : (h0 ++ [create_genesis_block floatstr now]) !! length h0
                   = Some (create_genesis_block floatstr now))
        by now apply list_lookup_middle.
      split.
      * unfold deref. cbn [mapM]. rewrite Hg. reflexivity.
      * exists (length h0), (create_genesis_block floatstr now).
        split; [reflexivity|]. split; [exact Hg|].
        split; [reflexivity|]. split; [reflexivity|].
        cbn [create_genesis_block hash set_hash]. intros Hnil.
        pose proof (compute_hash_length
                      (mkBlock 0 now (JStr (py "Genesis Block")) (str_mul (py "0") 64) 0 []))
          as Hlen.
        rewrite Hnil in Hlen. discriminate.
    + cbn [length seq fst snd chain with_chain].
      split; [discriminate|]. split; [|discriminate]. intros _.
      exact (deref_loaded h0 (b :: loaded)).
  - intros now g. subst g.
    cbn [create_genesis_block index previous_hash hash set_hash].
    split; [reflexivity|]. split; [reflexivity|]. split; [reflexivity|].
    split; [reflexivity|]. apply compute_hash_length.
  - intros fuel c self h self' h' Hrun. destruct c as [now d| | | |block];
      cbn [after] in Hrun.
    + destruct (setBlock floatstr fuel now d self h) as [[[s1 h1] l1]| |] eqn:Hset;
        try discriminate.
      injection Hrun as <- <-.
      destruct (setBlock_Ret _ _ _ _ _ _ _ _ Hset)
        as (tl & tip & b' & _ & _ & -> & -> & Hlen & Hold & _).
      cbn [chain with_chain]. split; [reflexivity|].
      split; [rewrite length_app; cbn [length]; lia|]. split; assumption.
    + injection Hrun as <- <-. split; reflexivity.
    + injection Hrun as <- <-. split; reflexivity.
    + injection Hrun as <- <-. split; reflexivity.
    + destruct (mineBlock floatstr fuel self h block) as [[h1 l1]| |] eqn:Hmine;
        try discriminate.
      injection Hrun as <- <-.
      destruct (mineBlock_writes _ _ _ _ _ _ Hmine) as (_ & Hlen & Hother).
      split; [reflexivity|]. split; assumption.
Qed.

End Facts.

(** ** How the operations compose *)

Section Operations.

Context {float : Type} (floatstr : float -> pystr).
Implicit Types (b : Block float) (h : heap float) (self : CentralBlockchain).
Implicit Types (l : loc) (p : pystr).

Lemma compute_hash_set_hash b d :
  compute_hash floatstr (set_hash b d) = compute_hash floatstr b.
Proof. destruct b. apply compute_hash_fields. Qed.

(** What a call of [mineBlock] that returns has done. *)
Lemma mineBlock_outcome fuel self h l h' l' :
  mineBlock floatstr fuel self h l = Ret (h', l') ->
  exists b n,
    h !! l = Some b /\ search floatstr fuel (prefix self) b = Some n /\
    nonce_ok floatstr (prefix self) b n = true /\
    h' = <[l := seal floatstr (set_nonce b n)]> h /\ l' = l.
Proof.
  intros H. destruct (mineBlock_Ret_lookup _ _ _ _ _ _ H) as [b Hb].
  rewrite (mineBlock_search _ _ _ _ _ _ Hb) in H.
  destruct (search floatstr fuel (prefix self) b) as [n|] eqn:Hs; [|discriminate].
  injection H as <- <-. exists b, n. repeat split; try assumption.
  apply search_Some in Hs as (k & _ & _ & Hok & _). exact Hok.
Qed.


(** X1. Mining a block that [mineBlock] has returned changes nothing:
    the second call returns on its first iteration and leaves the
    store, and so the nonce and the hash of the block, as they are. *)
Theorem mineBlock_again fuel fuel' self h l h' l' :
  mineBlock floatstr fuel self h l = Ret (h', l') ->
  mineBlock floatstr (S fuel') self h' l' = Ret (h', l').
Proof.
  intros H. destruct (mineBlock_outcome _ _ _ _ _ _ H) as (b & n & Hb & _ & Hok & -> & ->).
  assert (Hl : l < length h) by (eapply lookup_lt_Some; exact Hb).
  cbn [mineBlock]. rewrite list_lookup_insert_eq by exact Hl.
  unfold seal. rewrite !compute_hash_set_hash.
  unfold nonce_ok in Hok. rewrite Hok, list_insert_insert_eq.
  reflexivity.
Qed.

(** X2. A ledger made with a difficulty of zero or less has the empty
    prefix: [mineBlock] seals every block at the nonce it comes with,
    on its first iteration, and every hash passes the prefix check. *)
Theorem nonpositive_difficulty d loaded now h0 :
  (d <= 0)%Z ->
  let self := (init floatstr d loaded now h0).1 in
  prefix self = [] /\
  (forall s, startswith s (prefix self) = true) /\
  forall fuel h l b,
    h !! l = Some b ->
    mineBlock floatstr (S fuel) self h l = Ret (<[l := seal floatstr b]> h, l).
Proof.
  intros Hd self.
  assert (Hp : prefix self = []).
  { unfold self, init. cbn [chain with_chain].
    assert (E : str_mul (py "0") d = []).
    { unfold str_mul. replace (Z.to_nat d) with O by lia. reflexivity. }
    destruct (seq (length h0) (length loaded)); cbn [fst prefix with_chain]; exact E. }
  split; [exact Hp|]. split.
  - intros s. rewrite Hp. apply startswith_nil.
  - intros fuel h l b Hb. cbn [mineBlock]. rewrite Hb, Hp, startswith_nil. reflexivity.
Qed.

(** X3. The reference [setBlock] returns is the one [getBlock] gives at
    the old length of the chain, the block it names holds the data
    given, and [getBlock] gives what it gave before at every other
    index, naming blocks that are as they were. *)
Theorem getBlock_after_setBlock fuel now d self h self' h' l :
  setBlock floatstr fuel now d self h = Ret (self', h', l) ->
  getBlock self' (Z.of_nat (length (chain self))) = Some l /\
  (exists b, h' !! l = Some b /\ data b = d /\ timestamp b = now) /\
  forall i, i <> Z.of_nat (length (chain self)) ->
    getBlock self' i = getBlock self i /\
    forall l0, getBlock self i = Some l0 -> l0 < length h -> h' !! l0 = h !! l0.
Proof.
  intros H.
  destruct (setBlock_Ret _ _ _ _ _ _ _ _ _ H)
    as (tl & tip & b' & Hlast & Htip & -> & -> & Hlen' & Hold & Hnew
        & _ & Hts & Hdata & _).
  cbn [chain with_chain]. split; [|split].
  - unfold getBlock. cbn [chain with_chain]. rewrite length_app. cbn [length].
    rewrite (proj2 (Z.leb_le _ _)), (proj2 (Z.ltb_lt _ _)) by lia.
    cbn [andb]. rewrite Nat2Z.id. apply list_lookup_middle. reflexivity.
  - exists b'. auto.
  - intros i Hi. split; [|intros l0 _ Hl0; now apply Hold].
    unfold getBlock. cbn [chain with_chain]. rewrite length_app. cbn [length].
    destruct (Z.leb_spec 0 i) as [H0|H0]; cbn [andb]; [|reflexivity].
    destruct (Z.ltb_spec i (Z.of_nat (length (chain self)))) as [H1|H1].
    + rewrite (proj2 (Z.ltb_lt _ _)) by lia. apply lookup_app_l. lia.
    + rewrite (proj2 (Z.ltb_ge _ _)) by lia. reflexivity.
Qed.

Lemma deref_bound h (c : list loc) bs l :
  deref h c = Some bs -> l ∈ c -> l < length h.
Proof.
  intros Hd Hl. apply list_elem_of_lookup in Hl as [i Hi].
  destruct (deref_lookup _ _ _ _ _ Hd Hi) as (b & _ & Hb).
  eapply lookup_lt_Some. exact Hb.
Qed.


Lemma deref_last h (c : list loc) bs tl tip :
  deref h c = Some bs -> last c = Some tl -> h !! tl = Some tip ->
  last bs = Some tip.
Proof.
  intros Hd Hlast Htip. rewrite last_lookup in Hlast. rewrite last_lookup.
  destruct (deref_lookup _ _ _ _ _ Hd Hlast) as (b & Hb & Hb').
  rewrite (deref_length _ _ _ Hd). congruence.
Qed.

Lemma last_cons_default {A} (a : A) (r : list A) :
  last (a :: r) = Some (default a (last r)).
Proof.
  revert a. induction r as [|x r IH]; intros a; [reflexivity|].
  change (last (a :: x :: r)) with (last (x :: r)). rewrite IH.
  cbn [default]. reflexivity.
Qed.

(** One more block at the end, linked to the last one, leaves the
    answer of the loop of [is_valid] as it was. *)
Lemma check_links_snoc p prev rest c :
  link_ok floatstr p (default prev (last rest)) c ->
  check_links floatstr p prev (rest ++ [c]) = check_links floatstr p prev rest.
Proof.
  revert prev. induction rest as [|a rest IH]; intros prev Hlink.
  - destruct Hlink as (H1 & H2 & H3). cbn [app check_links default last] in *.
    rewrite !bool_decide_eq_true_2 by congruence. cbn [negb]. now rewrite H3.
  - cbn [app check_links].
    rewrite last_cons_default in Hlink. cbn [default] in Hlink.
    rewrite (IH a Hlink). reflexivity.
Qed.

(** X4. Appending does not change the answer of [is_valid]: a valid
    chain stays valid after [setBlock], and an invalid chain is not
    repaired by it. *)
Theorem setBlock_keeps_verdict fuel now d self h self' h' l bs :
  deref h (chain self) = Some bs ->
  setBlock floatstr fuel now d self h = Ret (self', h', l) ->
  is_valid floatstr self' h' = is_valid floatstr self h.
Proof.
  intros Hd H.
  destruct (setBlock_Ret _ _ _ _ _ _ _ _ _ H)
    as (tl & tip & b' & Hlast & Htip & -> & -> & Hlen' & Hold & Hnew
        & _ & _ & _ & Hph & _ & Hh & Hsw).
  assert (Hd' : deref h' (chain self) = Some bs).
  { rewrite <- Hd. apply deref_ext. intros l Hl. apply Hold.
    eapply deref_bound; eassumption. }
  pose proof (deref_last _ _ _ _ _ Hd Hlast Htip) as Hlast'.
  unfold is_valid. cbn [chain with_chain prefix].
  rewrite (deref_snoc _ _ _ _ _ Hd' Hnew), Hd. cbn [fmap option_fmap option_map].
  f_equal. destruct bs as [|g rest]; [discriminate|].
  rewrite last_cons_default in Hlast'. injection Hlast' as Hlast'.
  cbn [app is_valid_blocks]. rewrite check_links_snoc; [reflexivity|].
  rewrite Hlast'. repeat split; assumption.
Qed.

Lemma startswith_fewer_zeros (s : pystr) (d d' : Z) :
  (d' <= d)%Z -> startswith s (str_mul (py "0") d) = true ->
  startswith s (str_mul (py "0") d') = true.
Proof. rewrite !startswith_zeros. lia. Qed.

(** X5. A chain that is valid for a ledger of difficulty [d] is valid
    for a ledger of any difficulty [d' <= d] that holds the same
    chain, as when the file is opened again with a lower difficulty. *)
Theorem is_valid_lower_difficulty self self' h :
  chain self' = chain self ->
  prefix self = str_mul (py "0") (difficulty self) ->
  prefix self' = str_mul (py "0") (difficulty self') ->
  (difficulty self' <= difficulty self)%Z ->
  is_valid floatstr self h = Some true ->
  is_valid floatstr self' h = Some true.
Proof.
  intros Hc Hp Hp' Hd. unfold is_valid. rewrite Hc.
  destruct (deref h (chain self)) as [bs|]; [|discriminate].
  cbn [fmap option_fmap option_map]. intros [= Hv]. f_equal.
  apply is_valid_blocks_spec. apply is_valid_blocks_spec in Hv as [Hg Hlinks].
  split; [exact Hg|]. intros i a c Ha Hcur.
  destruct (Hlinks i a c Ha Hcur) as (H1 & H2 & H3). repeat split; try assumption.
  rewrite Hp'. rewrite Hp in H3. eapply startswith_fewer_zeros; eassumption.
Qed.

(** X6. At a lower difficulty [mineBlock] stops no later: where it
    returns at difficulty [d], it returns within the same number of
    iterations at any [d' <= d], at a nonce that is not larger. *)
Theorem mineBlock_lower_difficulty fuel self self' h l h1 b1 :
  prefix self = str_mul (py "0") (difficulty self) ->
  prefix self' = str_mul (py "0") (difficulty self') ->
  (difficulty self' <= difficulty self)%Z ->
  mineBlock floatstr fuel self h l = Ret (h1, l) ->
  h1 !! l = Some b1 ->
  exists b2,
    mineBlock floatstr fuel self' h l = Ret (<[l := b2]> h, l) /\
    hash b2 = compute_hash floatstr b2 /\
    (nonce b2 <= nonce b1)%Z.
Proof.
  intros Hp Hp' Hd H Hb1.
  destruct (mineBlock_outcome _ _ _ _ _ _ H) as (b & n & Hb & Hs & Hok & -> & _).
  rewrite list_lookup_insert_eq in Hb1 by (eapply lookup_lt_Some; exact Hb).
  injection Hb1 as <-.
  apply search_Some in Hs as (k & Hk & -> & _ & _).
  assert (Hok' : nonce_ok floatstr (prefix self') b (nonce b + Z.of_nat k) = true).
  { unfold nonce_ok in *. rewrite Hp'. rewrite Hp in Hok.
    eapply startswith_fewer_zeros; eassumption. }
  destruct (search_least floatstr (prefix self') b (nonce b + Z.of_nat k)%Z
              ltac:(lia) Hok')
    as (k' & Hle & _ & _ & Hfuel).
  exists (seal floatstr (set_nonce b (nonce b + Z.of_nat k'))).
  rewrite (mineBlock_search _ _ _ _ _ _ Hb), Hfuel by lia.
  split; [reflexivity|]. split.
  - unfold seal. cbn [hash set_hash]. now rewrite compute_hash_set_hash.
  - cbn [seal set_hash set_nonce nonce]. exact Hle.
Qed.

(** X7. With a difficulty above 64 nothing can be appended and nothing
    longer than one block is valid: a digest has 64 characters, so
    [setBlock] never returns and [is_valid] is false on every chain of
    two blocks or more. *)
Theorem difficulty_above_64 self h :
  prefix self = str_mul (py "0") (difficulty self) ->
  (64 < difficulty self)%Z ->
  (forall fuel now d r, setBlock floatstr fuel now d self h <> Ret r) /\
  (forall bs, deref h (chain self) = Some bs -> 2 <= length bs ->
     is_valid floatstr self h = Some false).
Proof.
  intros Hp Hd.
  assert (Hlen : 64 < length (prefix self)).
  { rewrite Hp. change (py "0") with [48%N]. rewrite str_mul_length. lia. }
  split.
  - intros fuel now d r H. unfold setBlock in H.
    destruct (last (chain self) ≫= (fun l => h !! l)) as [prev|]; [|discriminate].
    cbv zeta in H.
    rewrite (mineBlock_search _ _ _ _ _ _ (list_lookup_middle h [] _ _ eq_refl)) in H.
    rewrite search_long_prefix in H by exact Hlen. discriminate.
  - intros bs Hbs Hlen2. unfold is_valid. rewrite Hbs.
    cbn [fmap option_fmap option_map]. f_equal.
    destruct (is_valid_blocks floatstr (prefix self) bs) eqn:Hv; [exfalso|reflexivity].
    apply is_valid_blocks_spec in Hv as [_ Hlinks].
    destruct bs as [|a [|c bs]]; cbn [length] in Hlen2; try lia.
    destruct (Hlinks 0 a c eq_refl eq_refl) as (_ & Hh & Hsw).
    apply startswith_length in Hsw. rewrite Hh, compute_hash_length in Hsw. lia.
Qed.



(** In a chain grown from a new ledger, the index of a block is its
    position. *)
Lemma appends_indexes N d0 now0 h0 self h :
  appends floatstr N (init floatstr d0 [] now0 h0) (self, h) ->
  exists bs, deref h (chain self) = Some bs /\
    forall i b, bs !! i = Some b -> index b = Z.of_nat i.
Proof.
  remember (init floatstr d0 [] now0 h0) as s0 eqn:Hs0.
  remember (self, h) as s eqn:Hs.
  intros Happ. revert self h Hs.
  induction Happ as [s|n s self1 h1 fuel now x self' h' l Happ IH Hset];
    intros self h Hs; subst.
  - unfold init in Hs. cbn [length seq chain with_chain app] in Hs.
    injection Hs as <- <-. rewrite app_nil_r. cbn [chain with_chain].
    exists [create_genesis_block floatstr now0]. split.
    + unfold deref. cbn [mapM]. rewrite list_lookup_middle by reflexivity. reflexivity.
    + intros [|i] b Hb; [|discriminate]. injection Hb as <-. reflexivity.
  - injection Hs as <- <-.
    destruct (IH eq_refl _ _ eq_refl) as (bs & Hd & Hidx).
    destruct (setBlock_Ret _ _ _ _ _ _ _ _ _ Hset)
      as (tl & tip & b' & Hlast & Htip & -> & -> & Hlen' & Hold & Hnew & Hi & _).
    cbn [chain with_chain].
    assert (Hd' : deref h' (chain self1) = Some bs).
    { rewrite <- Hd. apply deref_ext. intros l Hl. apply Hold.
      eapply deref_bound; eassumption. }
    pose proof (deref_last _ _ _ _ _ Hd Hlast Htip) as Hlast'.
    rewrite last_lookup in Hlast'.
    exists (bs ++ [b']). split; [now apply deref_snoc|].
    intros i b Hb. destruct (decide (i < length bs)) as [Hlt|Hge].
    + rewrite lookup_app_l in Hb by exact Hlt. now apply Hidx.
    + assert (i = length bs) as ->.
      { apply lookup_lt_Some in Hb. rewrite length_app in Hb. cbn [length] in Hb. lia. }
      rewrite list_lookup_middle in Hb by reflexivity. injection Hb as <-.
      rewrite Hi, (Hidx _ _ Hlast').
      assert (length bs <> 0) by (destruct bs; [discriminate|cbn [length]; lia]).
      lia.
Qed.

(** X9. In a chain grown from a new ledger by [setBlock], the index of
    every block is its position in the chain, so that [getBlock] at the
    index of a block of the chain gives that block. *)
Theorem fresh_chain_indexes N d0 now0 h0 self h :
  appends floatstr N (init floatstr d0 [] now0 h0) (self, h) ->
  forall i l, chain self !! i = Some l ->
    exists b, h !! l = Some b /\ index b = Z.of_nat i /\
      getBlock self (index b) = Some l.
Proof.
  intros Happ i l Hl.
  destruct (appends_indexes _ _ _ _ _ _ Happ) as (bs & Hd & Hidx).
  destruct (deref_lookup _ _ _ _ _ Hd Hl) as (b & Hb & Hb').
  exists b. split; [exact Hb'|]. rewrite (Hidx _ _ Hb). split; [reflexivity|].
  unfold getBlock. apply lookup_lt_Some in Hl as Hlt.
  rewrite (proj2 (Z.leb_le _ _)), (proj2 (Z.ltb_lt _ _)) by lia.
  cbn [andb]. rewrite Nat2Z.id. exact Hl.
Qed.

(** X10. On a chain grown from a new ledger, [--mine] previews the
    block [setBlock] would append for the same text at the same clock
    reading: the same block is made and mined, and only the chain is
    not touched. *)
Theorem main_mine_previews_setBlock N d0 now0 h0 self h fuel now s :
  appends floatstr N (init floatstr d0 [] now0 h0) (self, h) ->
  main_mine floatstr fuel now s self h =
    match setBlock floatstr fuel now (JStr s) self h with
    | Ret (_, h', l) => Ret (h', l)
    | Raise => Raise
    | OutOfFuel => OutOfFuel
    end.
Proof.
  intros Happ. destruct (appends_indexes _ _ _ _ _ _ Happ) as (bs & Hd & Hidx).
  unfold main_mine, setBlock.
  destruct (last (chain self)) as [tl|] eqn:Hlast; [|reflexivity].
  cbn [mbind option_bind]. destruct (h !! tl) as [tip|] eqn:Htip; [|reflexivity].
  cbv zeta. pose proof (deref_last _ _ _ _ _ Hd Hlast Htip) as Hlast'.
  rewrite last_lookup in Hlast'. apply Hidx in Hlast' as Hi.
  assert (length bs <> 0).
  { intros E. destruct bs; [discriminate|discriminate]. }
  replace (Z.of_nat (length (chain self))) with (index tip + 1)%Z
    by (rewrite Hi, <- (deref_length _ _ _ Hd); lia).
  destruct (mineBlock floatstr fuel self _ (length h)) as [[h' l']| |]; reflexivity.
Qed.

(** X11. In a chain grown from a new ledger, putting a block with
    another hash in the place of any block but the last, the genesis
    block included, is seen by [is_valid] whatever else the new block
    holds: the next block no longer names its hash. *)
Theorem replaced_block_detected N d0 now0 h0 self h i l l2 b b' :
  appends floatstr N (init floatstr d0 [] now0 h0) (self, h) ->
  chain self !! i = Some l -> chain self !! S i = Some l2 ->
  h !! l = Some b -> hash b' <> hash b ->
  is_valid floatstr self (<[l := b']> h) = Some false.
Proof.
  intros Happ Hl Hl2 Hb Hne.
  destruct (appends_fresh _ _ _ _ _ _ _ Happ)
    as ((_ & Hnd & _) & bs & Hd & _ & Hv & _).
  unfold is_valid. rewrite (deref_insert _ _ _ _ _ b' Hnd Hd Hl).
  cbn [fmap option_fmap option_map]. f_equal.
  destruct (is_valid_blocks floatstr (prefix self) (<[i:=b']> bs)) eqn:Hv';
    [exfalso|reflexivity].
  apply is_valid_blocks_spec in Hv as [_ Hlinks].
  apply is_valid_blocks_spec in Hv' as [_ Hlinks'].
  destruct (deref_lookup _ _ _ _ _ Hd Hl) as (b0 & Hb0 & Hb0').
  destruct (deref_lookup _ _ _ _ _ Hd Hl2) as (c & Hc & _).
  assert (b0 = b) as -> by congruence.
  destruct (Hlinks i b c Hb0 Hc) as (Hph & _).
  destruct (Hlinks' i b' c) as (Hph' & _).
  - apply list_lookup_insert_eq. eapply lookup_lt_Some. exact Hb0.
  - rewrite list_lookup_insert_ne by lia. exact Hc.
  - congruence.
Qed.

(** X12. The last block can be rewritten: on a valid chain whose
    references are distinct, giving the last block other contents with
    the same [previous_hash] and mining it again with [mineBlock]
    leaves a chain that [is_valid] accepts. *)
Theorem tip_rewrite_stays_valid fuel self h tl tip b1 h2 :
  NoDup (chain self) ->
  is_valid floatstr self h = Some true ->
  last (chain self) = Some tl -> h !! tl = Some tip ->
  previous_hash b1 = previous_hash tip ->
  mineBlock floatstr fuel self (<[tl := b1]> h) tl = Ret (h2, tl) ->
  is_valid floatstr self h2 = Some true.
Proof.
  intros Hnd Hv Hlast Htip Hph H. unfold is_valid in Hv.
  destruct (deref h (chain self)) as [bs|] eqn:Hd; [|discriminate].
  cbn [fmap option_fmap option_map] in Hv. injection Hv as Hv.
  assert (Htl : tl < length h) by (eapply lookup_lt_Some; exact Htip).
  destruct (mineBlock_outcome _ _ _ _ _ _ H) as (b & n & Hb & _ & Hok & -> & _).
  rewrite list_lookup_insert_eq in Hb by exact Htl. injection Hb as <-.
  rewrite list_insert_insert_eq.
  set (b2 := seal floatstr (set_nonce b1 n)).
  assert (Hb2 : hash b2 = compute_hash floatstr b2).
  { unfold b2, seal. cbn [hash set_hash]. now rewrite compute_hash_set_hash. }
  assert (Hsw : startswith (hash b2) (prefix self) = true) by exact Hok.
  assert (Hph2 : previous_hash b2 = previous_hash tip) by exact Hph.
  clearbody b2. rewrite last_lookup in Hlast.
  pose proof (deref_length _ _ _ Hd) as Hlen.
  destruct (deref_lookup _ _ _ _ _ Hd Hlast) as (t0 & Ht0 & Ht0').
  assert (t0 = tip) as -> by congruence.
  assert (Hi : pred (length (chain self)) < length bs).
  { eapply lookup_lt_Some. exact Ht0. }
  unfold is_valid. rewrite (deref_insert _ _ _ _ _ b2 Hnd Hd Hlast).
  cbn [fmap option_fmap option_map]. f_equal.
  apply is_valid_blocks_spec in Hv as [(g & Hg0 & Hg) Hlinks].
  apply is_valid_blocks_spec. split.
  - destruct (decide (pred (length (chain self)) = 0)) as [E|E].
    + exists b2. rewrite E. split; [|exact Hb2].
      apply list_lookup_insert_eq. lia.
    + exists g. rewrite list_lookup_insert_ne by lia. split; assumption.
  - intros j a c Ha Hc.
    assert (HSj : S j < length bs).
    { apply lookup_lt_Some in Hc. now rewrite length_insert in Hc. }
    rewrite list_lookup_insert_ne in Ha by lia.
    destruct (decide (S j = pred (length (chain self)))) as [E|E].
    + rewrite <- E in Hc. rewrite list_lookup_insert_eq in Hc by lia.
      injection Hc as <-. rewrite <- E in Ht0.
      destruct (Hlinks j a tip Ha Ht0) as (H1 & _).
      repeat split; [congruence|exact Hb2|exact Hsw].
    + rewrite list_lookup_insert_ne in Hc by lia. exact (Hlinks j a c Ha Hc).
Qed.

End Operations.

(** ** The canonical encoding *)

Section Encoding.

Context {float : Type} (floatstr : float -> pystr).
Implicit Types (v : json float) (r : pystr).

(** What the text of a float is assumed to be: it tells the float, it
    is made of the characters of a number, [NaN] and [Infinity], it
    starts like a number, and it is not the text of an integer (it has
    a point, an exponent or letters). *)
Hypothesis floatstr_inj : forall f1 f2, floatstr f1 = floatstr f2 -> f1 = f2.
Hypothesis floatstr_chars : forall f, Forall float_char (floatstr f).
Hypothesis floatstr_head :
  forall f, exists c t, floatstr f = c :: t /\ number_head c.
Hypothesis floatstr_not_int : forall f z, floatstr f <> int_repr z.

Lemma opener_not_delimiter v (c : N) : opener v c -> ~ delimiter c.
Proof.
  unfold delimiter. destruct v as [|[]| | | | |]; cbn [opener];
    unfold number_head; lia.
Qed.

Lemma dumps_head v : exists c t, dumps floatstr v = c :: t /\ opener v c.
Proof.
  destruct v as [|[]|z|f|s|l|d]; cbn [dumps opener];
    try (eexists _, _; split; reflexivity).
  - destruct (int_repr_head z) as (c & t & E & Hc). exists c, t.
    split; [exact E|]. unfold int_char in Hc. unfold number_head. lia.
  - apply floatstr_head.
Qed.

Lemma int_token (z : Z) : Forall (fun c => ~ delimiter c) (int_repr z).
Proof.
  eapply Forall_impl; [apply int_repr_chars|].
  intros c. unfold int_char, delimiter. lia.
Qed.

Lemma float_token (f : float) : Forall (fun c => ~ delimiter c) (floatstr f).
Proof.
  eapply Forall_impl; [apply floatstr_chars|].
  intros c. unfold float_char, delimiter. lia.
Qed.

(** Two payloads of different kinds have texts that start differently. *)
Ltac other_kind H :=
  exfalso;
  match type of H with
  | dumps _ ?v1 ++ _ = dumps _ ?v2 ++ _ =>
      let E1 := fresh "E" in
      let E2 := fresh "E" in
      destruct (dumps_head v1) as (?c & ?t & E1 & ?O);
      destruct (dumps_head v2) as (?c & ?t & E2 & ?O);
      rewrite E1, E2 in H; cbn [app] in H;
      apply cons_eq_inv in H as [-> _]
  end;
  cbn [opener] in *; unfold number_head in *;
  repeat match goal with b : bool |- _ => destruct b end; lia.

(** The text of a well-formed payload, followed by a delimiter or by
    nothing, is the text of no other well-formed payload. *)
Lemma dumps_prefix v1 :
  wf_json v1 -> forall v2 r1 r2,
  wf_json v2 -> delimited r1 -> delimited r2 ->
  dumps floatstr v1 ++ r1 = dumps floatstr v2 ++ r2 ->
  json_eq v1 v2 /\ r1 = r2.
Proof.
  induction v1 as [|b1|z1|f1|s1|l1 IH|d1 IH] using json_induction;
    intros W1 v2 r1 r2 W2 D1 D2 H.
  - destruct v2; try other_kind H.
    apply app_inv_head in H. split; [constructor|exact H].
  - destruct v2 as [|b2| | | | |]; try other_kind H.
    assert (b1 = b2) as <-.
    { destruct b1, b2; try reflexivity; cbn in H; discriminate. }
    apply app_inv_head in H. split; [constructor|exact H].
  - destruct v2 as [| |z2|f2| | |]; try other_kind H.
    + cbn [dumps] in H.
      apply token_prefix in H as [H ->]; auto using int_token.
      apply int_repr_inj in H as ->. split; [constructor|reflexivity].
    + cbn [dumps] in H.
      apply token_prefix in H as [H _]; auto using int_token, float_token.
      symmetry in H. now apply floatstr_not_int in H.
  - destruct v2 as [| |z2|f2| | |]; try other_kind H.
    + cbn [dumps] in H.
      apply token_prefix in H as [H _]; auto using int_token, float_token.
      now apply floatstr_not_int in H.
    + cbn [dumps] in H.
      apply token_prefix in H as [H ->]; auto using float_token.
      apply floatstr_inj in H as ->. split; [constructor|reflexivity].
  - destruct v2 as [| | | |s2| |]; try other_kind H.
    cbn [dumps] in H. inversion W1; inversion W2; subst.
    apply encode_basestring_ascii_prefix in H as [-> ->]; [|assumption..].
    split; [constructor|reflexivity].
  - destruct v2 as [| | | | |l2|]; try other_kind H.
    cbn [dumps] in H. rewrite <- !app_assoc in H. cbn [app] in H.
    apply cons_eq_inv in H as [_ H].
    inversion W1 as [| | | | |? W1'|]; inversion W2 as [| | | | |? W2'|]; subst.
    apply (sequence_prefix (dumps floatstr) json_eq wf_json) in H as [HF ->].
    + split; [now constructor|reflexivity].
    + intros v. destruct (dumps_head v) as (c & t & E & O).
      exists c, t. split; [exact E|]. eapply opener_not_delimiter, O.
    + rewrite Forall_forall in IH, W1' |- *. intros v Hv. apply IH; auto.
    + exact W2'.
    + right; now left.
    + discriminate.
  - destruct v2 as [| | | | | |d2]; try other_kind H.
    cbn [dumps] in H. rewrite <- !app_assoc in H. cbn [app] in H.
    apply cons_eq_inv in H as [_ H].
    inversion W1 as [| | | | | |? W1']; inversion W2 as [| | | | | |? W2']; subst.
    set (tx := fun kv : pystr * json float => let '(k, x) := kv in (k, dumps floatstr x)) in H.
    pose proof (sort_items_perm (map tx d1)) as Q1.
    pose proof (sort_items_perm (map tx d2)) as Q2.
    apply Permutation_map_inv in Q1 as (d1' & E1 & P1).
    apply Permutation_map_inv in Q2 as (d2' & E2 & P2).
    rewrite E1, E2, !map_map in H.
    apply (sequence_prefix (fun kv => dump_item (tx kv))
             (fun kv1 kv2 => kv1.1 = kv2.1 /\ json_eq kv1.2 kv2.2)
             (fun kv => Forall scalar kv.1 /\ wf_json kv.2)) in H as [HF ->].
    + split; [|reflexivity]. now apply (eq_dict d1 d2 d1' d2').
    + intros [k x]. eexists _, _. split; [reflexivity|].
      unfold delimiter. lia.
    + rewrite <- P1. rewrite Forall_forall in IH, W1' |- *.
      intros [k1 x1] Hin [k2 x2] ra rb [Wk2 Wx2] Dra Drb H'.
      destruct (W1' _ Hin) as [Wk1 Wx1]. cbn [fst snd] in *.
      unfold tx, dump_item in H'. cbn [fst snd] in H'.
      rewrite <- !app_assoc in H'.
      apply encode_basestring_ascii_prefix in H' as [-> H']; [|assumption..].
      cbn [app] in H'. apply cons_eq_inv in H' as [_ H'].
      apply (IH _ Hin) in H' as [Hx ->]; auto.
    + now rewrite <- P2.
    + right; now right.
    + discriminate.
Qed.

(** The text is ASCII, so its UTF-8 bytes are its characters. *)
Lemma dumps_ascii v : Forall ascii (dumps floatstr v).
Proof.
  assert (Hc : forall c : N, (c < 128)%N -> Forall ascii [c]).
  { intros c Hc. apply Forall_cons_2; [exact Hc|constructor]. }
  induction v as [|b|z|f|s|l IH|d IH] using json_induction; cbn [dumps].
  - repeat constructor.
  - destruct b; repeat constructor.
  - apply int_repr_ascii.
  - eapply Forall_impl; [apply floatstr_chars|].
    intros c. unfold float_char, ascii. lia.
  - apply encode_basestring_ascii_ascii.
  - apply Forall_app; split; [now apply Hc|].
    apply Forall_app; split; [|now apply Hc].
    apply join_ascii. induction IH; cbn [map]; constructor; assumption.
  - apply Forall_app; split; [now apply Hc|].
    apply Forall_app; split; [|now apply Hc].
    apply join_ascii. rewrite sort_items_perm.
    induction IH as [|[k x] d Hx _ IHd]; cbn [map]; constructor; [|exact IHd].
    unfold dump_item. cbn [fst snd] in *.
    apply Forall_app; split; [apply encode_basestring_ascii_ascii|].
    apply Forall_app; split; [now apply Hc|exact Hx].
Qed.

(** The text of a block: its five fields in the order of their names. *)
Lemma block_string_fields (b : Block float) :
  block_string floatstr b =
    [123%N] ++ encode_basestring_ascii (py "data") ++ [58%N] ++
      dumps floatstr (data b) ++
    [44%N] ++ encode_basestring_ascii (py "index") ++ [58%N] ++
      int_repr (index b) ++
    [44%N] ++ encode_basestring_ascii (py "nonce") ++ [58%N] ++
      int_repr (nonce b) ++
    [44%N] ++ encode_basestring_ascii (py "previous_hash") ++ [58%N] ++
      encode_basestring_ascii (previous_hash b) ++
    [44%N] ++ encode_basestring_ascii (py "timestamp") ++ [58%N] ++
      floatstr (timestamp b) ++ [125%N].
Proof.
  unfold block_string. cbn [dumps map].
  change (sort_items _) with
    [(py "data", dumps floatstr (data b));
     (py "index", int_repr (index b));
     (py "nonce", int_repr (nonce b));
     (py "previous_hash", encode_basestring_ascii (previous_hash b));
     (py "timestamp", floatstr (timestamp b))].
  cbn [map join dump_item fst snd]. rewrite <- !app_assoc. reflexivity.
Qed.

(** A payload is the same payload as itself: two blocks whose data are
    not the same payload have different data. *)
Lemma json_eq_refl v : json_eq v v.
Proof.
  induction v as [| | | | |l IH|d IH] using json_induction; try constructor.
  - induction IH; constructor; assumption.
  - apply (eq_dict d d d d); try reflexivity.
    induction IH; constructor; auto.
Qed.

Lemma block_string_inj (b1 b2 : Block float) :
  wf_block b1 -> wf_block b2 ->
  block_string floatstr b1 = block_string floatstr b2 ->
  index b1 = index b2 /\ timestamp b1 = timestamp b2 /\
  json_eq (data b1) (data b2) /\
  previous_hash b1 = previous_hash b2 /\ nonce b1 = nonce b2.
Proof.
  intros [Wd1 Wp1] [Wd2 Wp2] H. rewrite !block_string_fields in H.
  assert (Hcomma : forall r, delimited (44%N :: r)) by (intros r; now left).
  cbn [app] in H. apply cons_eq_inv in H as [_ H].
  apply app_inv_head in H. apply cons_eq_inv in H as [_ H].
  apply dumps_prefix in H as [Hdata H]; auto.
  apply cons_eq_inv in H as [_ H].
  apply app_inv_head in H. apply cons_eq_inv in H as [_ H].
  apply token_prefix in H as [Hindex H]; auto using int_token.
  apply cons_eq_inv in H as [_ H].
  apply app_inv_head in H. apply cons_eq_inv in H as [_ H].
  apply token_prefix in H as [Hnonce H]; auto using int_token.
  apply cons_eq_inv in H as [_ H].
  apply app_inv_head in H. apply cons_eq_inv in H as [_ H].
  apply encode_basestring_ascii_prefix in H as [Hprev H]; auto.
  apply cons_eq_inv in H as [_ H].
  apply app_inv_head in H. apply cons_eq_inv in H as [_ H].
  apply token_prefix in H as [Htime _]; auto using float_token;
    try (cbn [delimited]; unfold delimiter; lia).
  apply int_repr_inj in Hindex, Hnonce. apply floatstr_inj in Htime.
  auto.
Qed.

(** C6, for strings of Unicode scalar values: two blocks whose data and
    previous_hash hold no surrogate code point, and which differ in
    index, timestamp, previous_hash or nonce, or whose data are not the
    same payload up to the order in which the items of a mapping were
    inserted, have different canonical encodings (the UTF-8 bytes of
    the compact JSON text with sorted keys). *)
Theorem canonical_encoding_injective (b1 b2 : Block float) :
  wf_block b1 -> wf_block b2 ->
  index b1 <> index b2 \/ timestamp b1 <> timestamp b2 \/
    ~ json_eq (data b1) (data b2) \/
    previous_hash b1 <> previous_hash b2 \/ nonce b1 <> nonce b2 ->
  encode_utf8 (block_string floatstr b1) <> encode_utf8 (block_string floatstr b2).
Proof.
  intros W1 W2 Hdiff H.
  rewrite !utf8_ascii in H by apply dumps_ascii.
  destruct (block_string_inj b1 b2 W1 W2 H) as (Hi & Ht & Hd & Hp & Hn).
  tauto.
Qed.

(** C3 (amended): a ledger built by [__init__] on no loaded chain and [N]
    calls of [setBlock] is valid. Giving the hash or the previous_hash
    of a block after the first another value makes it invalid. Giving
    its index, timestamp, data or nonce another value makes it invalid
    too, when the strings of the block hold Unicode scalar values only
    and the new data is not the old payload with the items of its
    mappings in another order, unless SHA-256 collides on the old and
    the new encoding. A change that leaves the canonical encoding as
    it was leaves the chain valid. *)
Theorem fresh_chain_valid N d0 now0 h0 self h :
  appends floatstr N (init floatstr d0 [] now0 h0) (self, h) ->
  is_valid floatstr self h = Some true /\
  forall i l (b b' : Block float) f,
    1 <= i -> chain self !! i = Some l -> h !! l = Some b -> changed f b b' ->
    (f = FHash \/ f = FPreviousHash ->
     is_valid floatstr self (<[l := b']> h) = Some false) /\
    (wf_block b -> wf_block b' ->
     (f = FData -> ~ json_eq (data b) (data b')) ->
     no_collision floatstr b b' ->
     is_valid floatstr self (<[l := b']> h) = Some false) /\
    (f <> FHash -> f <> FPreviousHash ->
     encode_utf8 (block_string floatstr b') = encode_utf8 (block_string floatstr b) ->
     is_valid floatstr self (<[l := b']> h) = Some true).
Proof.
  intros Happ.
  destruct (appended_chain_checks floatstr _ _ _ _ _ _ Happ) as [Hv Hch].
  split; [exact Hv|]. intros i l b b' f Hi Hl Hb Hc.
  destruct (Hch i l b b' f Hi Hl Hb Hc) as [Hfalse Htrue].
  split; [|split].
  - intros [->| ->]; apply Hfalse; auto.
  - intros W W' Hdata Hfree. apply Hfalse.
    destruct (decide (f = FHash)) as [Hf|Hf]; [now left|].
    destruct (decide (f = FPreviousHash)) as [Hf'|Hf']; [right; now left|].
    right; right. intros Heq. symmetry in Heq. apply Hfree in Heq.
    rewrite !utf8_ascii in Heq by apply dumps_ascii.
    destruct (block_string_inj b b' W W' Heq) as (Ei & Et & Ed & Ep & En).
    destruct f; cbn [changed] in Hc; destruct Hc as [Hne _];
      try congruence.
    now apply Hdata.
  - intros Hf Hf' Heq. apply Htrue; [exact Hf|exact Hf'|].
    unfold compute_hash. now rewrite Heq.
Qed.

(** The same payload, with distinct keys in every mapping, has the
    same text whatever the order its items were inserted in. *)
Lemma dumps_json_eq v1 :
  forall v2, distinct_keys v1 -> json_eq v1 v2 ->
  dumps floatstr v1 = dumps floatstr v2.
Proof.
  induction v1 as [|b1|z1|f1|s1|l1 IH|d1 IH] using json_induction;
    intros v2 Hdk Heq; inversion Heq; subst; try reflexivity.
  - inversion Hdk as [| | | | |? Hdk'|]; subst. cbn [dumps]. do 3 f_equal.
    clear Heq Hdk.
    match goal with F : Forall2 _ l1 _ |- _ => induction F as [|x y l l' Hxy F IHF] end;
      [reflexivity|].
    apply Forall_cons_1 in IH as [IHx IH]. apply Forall_cons_1 in Hdk' as [Hx Hdk'].
    cbn [map]. f_equal.
    + now apply IHx.
    + now apply IHF.
  - inversion Hdk as [| | | | | |? Hnd Hdk']; subst. cbn [dumps]. do 4 f_equal.
    set (tx := fun kv : pystr * json float =>
                 let '(k, x) := kv in (k, dumps floatstr x)).
    assert (Hfst : forall d, map fst (map tx d) = map fst d).
    { intros d. rewrite map_map. apply map_ext. now intros [k x]. }
    match goal with
    | P1 : Permutation d1 ?a, P2 : Permutation ?d2 ?c, F : Forall2 _ ?a ?c |- _ =>
        rename a into d1'; rename c into d2'; rename d2 into d0;
        rename P1 into Hp1; rename P2 into Hp2; rename F into HF
    end.
    assert (Hsame : map tx d1' = map tx d2').
    { rewrite Hp1 in IH, Hdk'. clear Hp1 Hp2 Heq Hdk.
      induction HF as [|[k1 x1] [k2 x2] l l' [Hk Hx] HF IHF]; [reflexivity|].
      apply Forall_cons_1 in IH as [IHx IH]. apply Forall_cons_1 in Hdk' as [Hx' Hdk'].
      cbn [fst snd] in *. subst k2. cbn [map tx]. f_equal.
      - f_equal. now apply IHx.
      - now apply IHF. }
    rewrite (sort_items_unique (map tx d1) (map tx d1')).
    + rewrite Hsame. apply sort_items_unique.
      * rewrite <- Hsame, Hfst, <- Hp1. exact Hnd.
      * apply Permutation_map. now symmetry.
    + now rewrite Hfst.
    + now apply Permutation_map.
Qed.

(** X13. The digest of a block does not depend on the order in which
    the keys of the mappings in its data were inserted (every mapping
    having distinct keys, as a [dict] has): the items are written in
    the order of their keys. *)
Theorem compute_hash_key_order (b1 b2 : Block float) :
  index b1 = index b2 -> timestamp b1 = timestamp b2 ->
  previous_hash b1 = previous_hash b2 -> nonce b1 = nonce b2 ->
  distinct_keys (data b1) -> json_eq (data b1) (data b2) ->
  compute_hash floatstr b1 = compute_hash floatstr b2.
Proof.
  intros Hi Ht Hp Hn Hdk Heq. unfold compute_hash. do 2 f_equal.
  rewrite !block_string_fields, Hi, Ht, Hp, Hn.
  rewrite (dumps_json_eq _ _ Hdk Heq). reflexivity.
Qed.

(** X14. The canonical text of a block is ASCII whatever its data and
    previous_hash hold, surrogate code points included (every other
    character is escaped), so that encoding it as UTF-8 gives the text
    itself, byte for character. *)
Theorem block_string_ascii (b : Block float) :
  Forall ascii (block_string floatstr b) /\
  encode_utf8 (block_string floatstr b) = block_string floatstr b /\
  length (encode_utf8 (block_string floatstr b)) = length (block_string floatstr b).
Proof.
  assert (H : Forall ascii (block_string floatstr b)) by apply dumps_ascii.
  split; [exact H|]. rewrite (utf8_ascii _ H). split; reflexivity.
Qed.

End Encoding.

(** ** The theorems at concrete ledgers *)

Lemma mineBlock_least_nonce_witness :
  (exists fuel b',
     mineBlock whole_floatstr fuel (ex_fresh 1).1 [ex_candidate] 0
       = Ret ([b'], 0) /\
     hash b' = compute_hash whole_floatstr b' /\
     1 <= leading_zeros (hash b') /\ (0 <= nonce b' <= 21)%Z) /\
  mineBlock whole_floatstr 1000 (ex_fresh 65).1 [ex_candidate] 0 = OutOfFuel.
Proof.
  split.
  - destruct (proj1 (mineBlock_least_nonce whole_floatstr (ex_fresh 1).1
                       [ex_candidate] 0 ex_candidate eq_refl eq_refl) 21%Z)
      as (fuel & b' & Hrun & _ & Hh & Hz & Hn & _).
    + vm_compute. discriminate.
    + vm_compute. lia.
    + exists fuel, b'. split; [exact (Hrun fuel (Nat.le_refl fuel))|].
      split; [exact Hh|]. split; [exact Hz|exact Hn].
  - apply (proj2 (proj2 (mineBlock_least_nonce whole_floatstr (ex_fresh 65).1
                           [ex_candidate] 0 ex_candidate eq_refl eq_refl))).
    cbn. lia.
Defined.

(** C1 does not hold as stated: at difficulty 65 no number of
    iterations makes [mineBlock] return, a digest having 64 characters. *)
Lemma mineBlock_difficulty_65_never_returns :
  ~ exists fuel r,
      mineBlock whole_floatstr fuel (ex_fresh 65).1 [ex_candidate] 0 = Ret r.
Proof.
  intros (fuel & r & Hrun).
  rewrite (mineBlock_search whole_floatstr fuel _ [ex_candidate] 0 ex_candidate eq_refl)
    in Hrun.
  rewrite search_long_prefix in Hrun; [discriminate|].
  vm_compute. lia.
Qed.

Lemma mineBlock_difficulty_zero_witness :
  exists h' b',
    mineBlock whole_floatstr 1 (ex_fresh 0).1 [ex_candidate] 0 = Ret (h', 0) /\
    h' !! 0 = Some b' /\ nonce b' = 0%Z /\
    hash b' = compute_hash whole_floatstr ex_candidate.
Proof.
  destruct (mineBlock_difficulty_zero whole_floatstr 0 (ex_fresh 0).1
              [ex_candidate] 0 ex_candidate eq_refl eq_refl eq_refl)
    as (h' & b' & Hrun & Hb' & Hn & Hh & _).
  exists h', b'. split; [exact Hrun|]. split; [exact Hb'|].
  split; [exact Hn|exact Hh].
Defined.

Lemma mineBlock_frame_witness :
  exists h',
    mineBlock whole_floatstr 64 (ex_fresh 1).1 ((ex_fresh 1).2 ++ [ex_candidate]) 1
      = Ret (h', 1) /\
    length h' = 2 /\ h' !! 0 = (ex_fresh 1).2 !! 0.
Proof.
  eexists.
  match goal with |- ?A /\ _ => assert (Hrun : A) by (vm_compute; reflexivity) end.
  split; [exact Hrun|].
  destruct (mineBlock_frame whole_floatstr _ _ _ _ _ _ Hrun) as (_ & Hlen & Hother & _).
  split; [exact Hlen|]. apply Hother. discriminate.
Defined.

Lemma compute_hash_deterministic_witness :
  compute_hash whole_floatstr ex_candidate =
  compute_hash whole_floatstr (set_hash ex_candidate (py "ff")).
Proof.
  exact (proj1 (compute_hash_deterministic whole_floatstr ex_candidate
                  (set_hash ex_candidate (py "ff"))
                  eq_refl eq_refl eq_refl eq_refl eq_refl)).
Defined.

Lemma is_valid_spec_witness :
  exists prev curr,
    ex_one.2 !! 0 = Some prev /\ ex_one.2 !! 1 = Some curr /\
    is_valid whole_floatstr ex_one.1 ex_one.2 = Some true /\
    previous_hash curr = hash prev /\
    hash curr = compute_hash whole_floatstr curr /\
    (difficulty ex_one.1 <= Z.of_nat (leading_zeros (hash curr)))%Z.
Proof.
  destruct (is_valid_spec whole_floatstr ex_one.1 ex_one.2 ex_one.2 eq_refl eq_refl)
    as (_ & (r & Hr & Hiff) & _).
  assert (Hv : is_valid whole_floatstr ex_one.1 ex_one.2 = Some true)
    by (vm_compute; reflexivity).
  assert (r = true) as Htrue by congruence.
  apply Hiff in Htrue as [_ Hlinks].
  eexists _, _. split; [reflexivity|]. split; [reflexivity|]. split; [exact Hv|].
  exact (Hlinks 0 _ _ eq_refl eq_refl).
Defined.

(** C3 does not hold as stated: in the chain of a new ledger and one
    [setBlock], writing the surrogate pair in place of the one character
    it encodes changes the data of block 1 and the chain stays valid. *)
Lemma data_change_undetected :
  exists self h l b b',
    appends whole_floatstr 1 (ex_fresh 1) (self, h) /\
    chain self !! 1 = Some l /\ h !! l = Some b /\
    changed FData b b' /\
    is_valid whole_floatstr self (<[l := b']> h) = Some true.
Proof.
  eexists _, _, 1, _, _.
  split.
  { eapply (appends_S _ _ _ _ _ 64 1700000001%Z ex_astral).
    - apply appends_O.
    - vm_compute. reflexivity. }
  split; [reflexivity|]. split; [reflexivity|].
  split.
  - instantiate (1 := mkBlock _ _ ex_surrogates _ _ _).
    split; [discriminate|reflexivity].
  - vm_compute. reflexivity.
Qed.

(** C10 does not hold as stated: a ledger made from a file that holds
    one block of index 5 has that block, not a genesis block, first. *)
Lemma loaded_chain_without_genesis :
  ~ genesis_first (init whole_floatstr 3 [ex_foreign] 1700000000%Z []).1
                  (init whole_floatstr 3 [ex_foreign] 1700000000%Z []).2.
Proof.
  intros (l & g & Hl & Hg & Hidx & _).
  injection Hl as <-. injection Hg as <-. discriminate.
Qed.

(** ** The canonical encoding at concrete blocks *)

(** The text of a whole float meets what [Section Encoding] assumes. *)
Lemma whole_floatstr_inj (z1 z2 : Z) :
  whole_floatstr z1 = whole_floatstr z2 -> z1 = z2.
Proof.
  unfold whole_floatstr. intros H. apply app_inv_tail in H.
  now apply int_repr_inj.
Qed.

Lemma whole_floatstr_chars (z : Z) : Forall float_char (whole_floatstr z).
Proof.
  unfold whole_floatstr. apply Forall_app; split.
  - eapply Forall_impl; [apply int_repr_chars|].
    intros c. unfold int_char, float_char. lia.
  - repeat (apply Forall_cons_2; [unfold float_char; cbn; lia|]). constructor.
Qed.

Lemma whole_floatstr_head (z : Z) :
  exists c t, whole_floatstr z = c :: t /\ number_head c.
Proof.
  unfold whole_floatstr. destruct (int_repr_head z) as (c & t & -> & Hc).
  eexists _, _. split; [reflexivity|].
  unfold int_char in Hc. unfold number_head. lia.
Qed.

Lemma whole_floatstr_not_int (z z' : Z) : whole_floatstr z <> int_repr z'.
Proof.
  unfold whole_floatstr. intros H.
  pose proof (int_repr_chars z') as Hall. rewrite <- H in Hall.
  apply Forall_app in Hall as [_ Hall].
  apply Forall_cons_1 in Hall as [Hpoint _].
  unfold int_char in Hpoint. cbn in Hpoint. lia.
Qed.

Lemma canonical_encoding_injective_witness :
  encode_utf8 (block_string whole_floatstr ex_candidate) <>
  encode_utf8 (block_string whole_floatstr (set_nonce ex_candidate 1)).
Proof.
  assert (W : Forall scalar (previous_hash ex_candidate)).
  { let l := eval vm_compute in (previous_hash ex_candidate) in
    change (Forall scalar l).
    repeat (apply Forall_cons_2; [left; reflexivity|]). constructor. }
  apply (canonical_encoding_injective whole_floatstr whole_floatstr_inj
           whole_floatstr_chars whole_floatstr_head whole_floatstr_not_int).
  - split; [|exact W]. constructor.
    apply Forall_cons_2; [left; reflexivity|constructor].
  - split; [|exact W]. constructor.
    apply Forall_cons_2; [left; reflexivity|constructor].
  - right; right; right; right. discriminate.
Defined.

(** C6 does not hold for every string: the data of these two blocks
    differ, one holding the character U+1F600 and the other the two
    surrogate code points U+D83D U+DE00, yet both blocks have the same
    canonical encoding. *)
Lemma surrogate_pair_same_encoding :
  exists b1 b2 : Block Z,
    index b1 = index b2 /\ timestamp b1 = timestamp b2 /\
    previous_hash b1 = previous_hash b2 /\ nonce b1 = nonce b2 /\
    data b1 = ex_astral /\ data b2 = ex_surrogates /\ data b1 <> data b2 /\
    encode_utf8 (block_string whole_floatstr b1) =
    encode_utf8 (block_string whole_floatstr b2).
Proof.
  exists (mkBlock 1 1700000001%Z ex_astral (str_mul (py "0") 64) 0 []),
         (mkBlock 1 1700000001%Z ex_surrogates (str_mul (py "0") 64) 0 []).
  repeat (split; [reflexivity|]). split; [discriminate|].
  vm_compute. reflexivity.
Qed.

(** ** The operations at concrete ledgers *)

Lemma ex_one_appends : appends whole_floatstr 1 (ex_fresh 1) ex_one.
Proof.
  eapply (appends_S _ _ _ _ _ 64 1700000001%Z (JStr (py "a"))).
  - apply appends_O.
  - vm_compute. reflexivity.
Qed.

Lemma mineBlock_again_witness :
  exists h',
    mineBlock whole_floatstr 64 (ex_fresh 1).1 [ex_candidate] 0 = Ret (h', 0) /\
    mineBlock whole_floatstr 1 (ex_fresh 1).1 h' 0 = Ret (h', 0).
Proof.
  eexists.
  match goal with |- ?A /\ _ => assert (H : A) by (vm_compute; reflexivity) end.
  split; [exact H|].
  exact (mineBlock_again whole_floatstr 64 0 _ _ _ _ _ H).
Defined.

Lemma nonpositive_difficulty_witness :
  prefix (init whole_floatstr (-3) [] 1700000000%Z []).1 = [].
Proof.
  exact (proj1 (nonpositive_difficulty whole_floatstr (-3) [] 1700000000%Z []
                  ltac:(lia))).
Defined.

Lemma getBlock_after_setBlock_witness :
  exists self' h' l,
    setBlock whole_floatstr 64 1700000001%Z (JStr (py "a"))
      (ex_fresh 1).1 (ex_fresh 1).2 = Ret (self', h', l) /\
    getBlock self' 1 = Some l.
Proof.
  eexists _, _, _.
  match goal with |- ?A /\ _ => assert (H : A) by (vm_compute; reflexivity) end.
  split; [exact H|].
  destruct (getBlock_after_setBlock whole_floatstr _ _ _ _ _ _ _ _ H) as [G _].
  exact G.
Defined.

Lemma setBlock_keeps_verdict_witness :
  exists self' h' l,
    setBlock whole_floatstr 64 1700000001%Z (JStr (py "a"))
      (ex_fresh 1).1 (ex_fresh 1).2 = Ret (self', h', l) /\
    is_valid whole_floatstr self' h' =
    is_valid whole_floatstr (ex_fresh 1).1 (ex_fresh 1).2.
Proof.
  eexists _, _, _.
  match goal with |- ?A /\ _ => assert (H : A) by (vm_compute; reflexivity) end.
  split; [exact H|].
  eapply (setBlock_keeps_verdict whole_floatstr); [|exact H].
  reflexivity.
Defined.

Lemma is_valid_lower_difficulty_witness :
  is_valid whole_floatstr (mkLedger 0 [] (chain ex_one.1)) ex_one.2 = Some true.
Proof.
  apply (is_valid_lower_difficulty whole_floatstr ex_one.1).
  - reflexivity.
  - reflexivity.
  - reflexivity.
  - cbn. lia.
  - vm_compute. reflexivity.
Defined.

Lemma mineBlock_lower_difficulty_witness :
  exists b2,
    mineBlock whole_floatstr 64 (mkLedger 0 [] []) [ex_candidate] 0
      = Ret (<[0 := b2]> [ex_candidate], 0) /\
    hash b2 = compute_hash whole_floatstr b2 /\ (nonce b2 <= 21)%Z.
Proof.
  assert (H : exists b1, mineBlock whole_floatstr 64 (ex_fresh 1).1 [ex_candidate] 0
                           = Ret ([b1], 0) /\ nonce b1 = 21%Z).
  { eexists. split; vm_compute; reflexivity. }
  destruct H as (b1 & H & Hn). rewrite <- Hn.
  apply (mineBlock_lower_difficulty whole_floatstr 64 (ex_fresh 1).1
           (mkLedger 0 [] []) _ _ [b1]).
  - reflexivity.
  - reflexivity.
  - cbn. lia.
  - exact H.
  - reflexivity.
Defined.

Lemma difficulty_above_64_witness :
  is_valid whole_floatstr
    (mkLedger 65 (str_mul (py "0") 65) (chain ex_one.1)) ex_one.2 = Some false.
Proof.
  eapply (proj2 (difficulty_above_64 whole_floatstr
                   (mkLedger 65 (str_mul (py "0") 65) (chain ex_one.1)) ex_one.2
                   eq_refl ltac:(cbn; lia))).
  - reflexivity.
  - cbn. lia.
Defined.


Lemma fresh_chain_indexes_witness :
  exists b, ex_one.2 !! 1 = Some b /\ index b = 1%Z /\
    getBlock ex_one.1 (index b) = Some 1.
Proof.
  exact (fresh_chain_indexes whole_floatstr 1 1 1700000000%Z [] ex_one.1 ex_one.2
           ex_one_appends 1 1 eq_refl).
Defined.

Lemma main_mine_previews_setBlock_witness :
  exists self' h' l,
    setBlock whole_floatstr 64 1700000002%Z (JStr (py "b")) ex_one.1 ex_one.2
      = Ret (self', h', l) /\
    main_mine whole_floatstr 64 1700000002%Z (py "b") ex_one.1 ex_one.2
      = Ret (h', l).
Proof.
  eexists _, _, _.
  match goal with |- ?A /\ _ => assert (H : A) by (vm_compute; reflexivity) end.
  split; [exact H|].
  rewrite (main_mine_previews_setBlock whole_floatstr 1 1 1700000000%Z []
             ex_one.1 ex_one.2 64 1700000002%Z (py "b") ex_one_appends).
  rewrite H. reflexivity.
Defined.

Lemma replaced_block_detected_witness :
  is_valid whole_floatstr ex_one.1 (<[0 := ex_foreign]> ex_one.2) = Some false.
Proof.
  eapply (replaced_block_detected whole_floatstr 1 1 1700000000%Z []
            ex_one.1 ex_one.2 0 0 1 _ ex_foreign ex_one_appends).
  - reflexivity.
  - reflexivity.
  - reflexivity.
  - cbn. discriminate.
Defined.

Lemma tip_rewrite_stays_valid_witness :
  exists h2,
    mineBlock whole_floatstr 64 ex_one.1 (<[1 := ex_rewritten]> ex_one.2) 1
      = Ret (h2, 1) /\
    is_valid whole_floatstr ex_one.1 h2 = Some true.
Proof.
  eexists.
  match goal with |- ?A /\ _ => assert (H : A) by (vm_compute; reflexivity) end.
  split; [exact H|].
  eapply (tip_rewrite_stays_valid whole_floatstr 64 ex_one.1 ex_one.2 1 _
            ex_rewritten); [| | | | |exact H].
  - apply (bool_decide_unpack (NoDup (chain ex_one.1))). vm_compute. exact I.
  - vm_compute. reflexivity.
  - reflexivity.
  - reflexivity.
  - reflexivity.
Defined.

Lemma compute_hash_key_order_witness :
  compute_hash whole_floatstr
    (mkBlock 1 1700000001%Z ex_ab (str_mul (py "0") 64) 0 []) =
  compute_hash whole_floatstr
    (mkBlock 1 1700000001%Z ex_ba (str_mul (py "0") 64) 0 []).
Proof.
  apply compute_hash_key_order; try reflexivity.
  - constructor.
    + apply (bool_decide_unpack (NoDup [py "a"; py "b"])). vm_compute. exact I.
    + repeat constructor.
  - apply (eq_dict _ _ [(py "a", JInt 1); (py "b", JInt 2)]
                       [(py "a", JInt 1); (py "b", JInt 2)]).
    + reflexivity.
    + apply perm_swap.
    + repeat constructor.
Defined.

Lemma block_string_ascii_witness :
  Forall ascii (block_string whole_floatstr ex_candidate) /\
  encode_utf8 (block_string whole_floatstr ex_candidate) =
    block_string whole_floatstr ex_candidate /\
  length (encode_utf8 (block_string whole_floatstr ex_candidate)) =
    length (block_string whole_floatstr ex_candidate).
Proof.
  exact (block_string_ascii whole_floatstr whole_floatstr_chars ex_candidate).
Defined.

Lemma fresh_chain_valid_witness :
  is_valid whole_floatstr ex_one.1 ex_one.2 = Some true /\
  is_valid whole_floatstr ex_one.1 (<[1 := ex_rewritten]> ex_one.2) = Some false.
Proof.
  destruct (fresh_chain_valid whole_floatstr whole_floatstr_inj
              whole_floatstr_chars whole_floatstr_head whole_floatstr_not_int
              1 1 1700000000%Z [] ex_one.1 ex_one.2 ex_one_appends)
    as [Hv Hdet].
  split; [exact Hv|].
  assert (Hhex : forall s : pystr,
             forallb (fun c => N.ltb c 0xD800) s = true -> Forall scalar s).
  { intros s Hs. apply Forall_forall. intros c Hc.
    rewrite forallb_forall in Hs. left. apply N.ltb_lt, Hs.
    now apply list_elem_of_In. }
  let t := eval vm_compute in (ex_one.2 !! 1) in
  match t with
  | Some ?b =>
      destruct (Hdet 1 1 b ex_rewritten FData (Nat.le_refl 1) eq_refl eq_refl)
        as (_ & Hfalse & _)
  end.
  - split; [discriminate|reflexivity].
  - apply Hfalse.
    + split; [constructor|]; apply Hhex; reflexivity.
    + split; [constructor|]; apply Hhex; reflexivity.
    + intros _ Heq. inversion Heq.
    + intros Heq. vm_compute in Heq. discriminate Heq.
Defined.

Lemma setBlock_linkage_witness :
  exists fuel mined,
    setBlock whole_floatstr fuel 1700000001%Z (JStr (py "a"))
      (ex_fresh 1).1 (ex_fresh 1).2
      = Ret (with_chain (ex_fresh 1).1 [0; 1], (ex_fresh 1).2 ++ [mined], 1) /\
    index mined = 1%Z /\ data mined = JStr (py "a") /\
    previous_hash mined = hash (create_genesis_block whole_floatstr 1700000000%Z) /\
    (0 <= nonce mined <= 6)%Z /\
    hash mined = compute_hash whole_floatstr mined /\
    1 <= leading_zeros (hash mined).
Proof.
  destruct (proj1 (setBlock_linkage whole_floatstr) 1700000001%Z (JStr (py "a"))
              (ex_fresh 1).1 (ex_fresh 1).2 0
              (create_genesis_block whole_floatstr 1700000000%Z) 6%Z)
    as (fuel & mined & Hrun & Hi & _ & Hd & Hp & Hn & Hh & Hz).
  - reflexivity.
  - reflexivity.
  - reflexivity.
  - lia.
  - vm_compute. lia.
  - exists fuel, mined. split; [exact (Hrun fuel (Nat.le_refl fuel))|].
    split; [exact Hi|]. split; [exact Hd|]. split; [exact Hp|].
    split; [exact Hn|]. split; [exact Hh|exact Hz].
Defined.
